(** * Juris 0.8.1: the reactive state container, the async resolver and the
      text / children bindings of the renderer

    A shallow embedding of [lib/juris.0.8.1.js].  Each definition carries the
    name of the JavaScript function it embeds.

    Modelling conventions.
    - A JavaScript value is a [value]: the JSON shapes the state tree holds,
      plus [undefined], symbols and [NaN].  The other numbers are integers;
      a string is a sequence of code units below 256.
    - A record is its list of own enumerable properties in insertion order,
      with unique keys ([wf_value]).  An array is a record whose keys are its
      indices, tagged by a flag (what [Array.isArray] answers).  A string
      answers its [length] and its characters.  The members inherited
      through the prototype chain and the [length] of an array are outside
      the model: [inheritedName] lists their names, and the statements that
      depend on what such a name answers exclude them by hypothesis.
    - Objects carry no identity: [a === b] on two records is read as
      "same contents"; [deepEquals_refl] shows that [deepEquals] answers the
      same on the two readings for a record that holds no [NaN].  A value
      written to the tree is a tree of its own: the model has no record
      reachable through two paths, and no statement here is about one.
    - A callback (middleware, subscriber) is a [prog]: a finite tree of
      [getState] / [setState] calls ending in a return or a throw.  It
      cannot subscribe or unsubscribe, does not catch what [setState]
      throws, and sees the values it is handed as they were at the call
      (a later write does not show through them).
    - The recursion setState -> callback -> setState is bounded by a fuel
      argument; [OutOfFuel] stands for a call stack that outgrows the bound
      and is not an exception a [catch] block of the program sees.
    - [console] records the console output (level and message, without the
      serialised context object); [calls] is a ghost record of the callbacks
      invoked.
    - The file follows the source in order: the state manager, the async
      resolver, the component context, the renderer bindings; then the
      vocabulary of the statements, the sample inputs, and the proofs. *)

From Stdlib Require Import List String Ascii ZArith Bool Arith Lia DecimalString.
Import ListNotations.
Open Scope string_scope.
Open Scope list_scope.

Set Implicit Arguments.

(** ** Values *)

#[warnings="-register-all"]
Inductive value : Type :=
| VUndefined
| VNull
| VBool (b : bool)
| VNum (n : Z)
| VStr (s : string)
| VSym (id : nat)
| VObj (isArray : bool) (fields : list (string * value))
| VNaN.

Definition emptyRecord : value := VObj false [].

Inductive jstype := TUndefined | TObject | TBoolean | TNumber | TString | TSymbol.

Definition jstype_eqb (a b : jstype) : bool :=
  match a, b with
  | TUndefined, TUndefined | TObject, TObject | TBoolean, TBoolean
  | TNumber, TNumber | TString, TString | TSymbol, TSymbol => true
  | _, _ => false
  end.

(** [typeof v] *)
Definition typeof (v : value) : jstype :=
  match v with
  | VUndefined => TUndefined
  | VNull => TObject
  | VBool _ => TBoolean
  | VNum _ => TNumber
  | VStr _ => TString
  | VSym _ => TSymbol
  | VObj _ _ => TObject
  | VNaN => TNumber
  end.

(** [v == null] *)
Definition isNullish (v : value) : bool :=
  match v with VUndefined | VNull => true | _ => false end.

Definition isUndefined (v : value) : bool :=
  match v with VUndefined => true | _ => false end.

(** [a === b] on primitives.  Two records are never identified here: the
    callers that compare records fall through to a structural comparison.
    [NaN] is not equal to itself. *)
Definition strictEquals (a b : value) : bool :=
  match a, b with
  | VUndefined, VUndefined => true
  | VNull, VNull => true
  | VBool x, VBool y => Bool.eqb x y
  | VNum x, VNum y => Z.eqb x y
  | VStr x, VStr y => String.eqb x y
  | VSym x, VSym y => Nat.eqb x y
  | _, _ => false
  end.

(** ** Own properties of a record *)

Fixpoint lookup (A : Type) (k : string) (l : list (string * A)) : option A :=
  match l with
  | [] => None
  | (k', v) :: l' => if String.eqb k k' then Some v else lookup k l'
  end.

(** [obj[k] = v] on the property list: overwrite in place, else append. *)
Fixpoint assign (A : Type) (k : string) (v : A) (l : list (string * A)) : list (string * A) :=
  match l with
  | [] => [(k, v)]
  | (k', v') :: l' => if String.eqb k k' then (k', v) :: l' else (k', v') :: assign k v l'
  end.

(** [delete obj[k]] / [Map.delete] *)
Fixpoint remove (A : Type) (k : string) (l : list (string * A)) : list (string * A) :=
  match l with
  | [] => []
  | (k', v') :: l' => if String.eqb k k' then l' else (k', v') :: remove k l'
  end.

Definition keys (A : Type) (l : list (string * A)) : list string := map fst l.

Definition has (A : Type) (k : string) (l : list (string * A)) : bool :=
  match lookup k l with Some _ => true | None => false end.

(** [String(n)] for an array index. *)
Definition showIndex (n : nat) : string := NilZero.string_of_uint (Nat.to_uint n).

(** The index a property name stands for, when it is the canonical decimal
    form of one. *)
Definition indexOf (k : string) : option nat :=
  match NilZero.uint_of_string k with
  | Some u => let i := Nat.of_uint u in
              if String.eqb (showIndex i) k then Some i else None
  | None => None
  end.

(** [s[k]] on a string: its [length] and its characters. *)
Definition stringMember (s : string) (k : string) : value :=
  if String.eqb k "length" then VNum (Z.of_nat (String.length s))
  else match indexOf k with
       | Some i => match String.get i s with
                   | Some c => VStr (String c EmptyString)
                   | None => VUndefined
                   end
       | None => VUndefined
       end.

(** [v?.[k]]: an own property of a record, a member of a string. *)
Definition get_prop (v : value) (k : string) : value :=
  match v with
  | VObj _ fs => match lookup k fs with Some x => x | None => VUndefined end
  | VStr s => stringMember s k
  | _ => VUndefined
  end.

(** [Set.add]: a set is the list of its members in insertion order. *)
Definition set_add (x : string) (l : list string) : list string :=
  if existsb (String.eqb x) l then l else l ++ [x].

Definition set_has (x : string) (l : list string) : bool := existsb (String.eqb x) l.

Definition set_delete (x : string) (l : list string) : list string :=
  filter (fun y => negb (String.eqb x y)) l.

(** ** Utilities *)

(** The characters [String.prototype.trim] strips, among the code units
    below 256: tab to carriage return, the space, the no-break space. *)
Definition isSpace (c : ascii) : bool :=
  let n := nat_of_ascii c in
  Nat.eqb n 32 || (Nat.leb 9 n && Nat.leb n 13) || Nat.eqb n 160.

Fixpoint allSpace (s : string) : bool :=
  match s with
  | EmptyString => true
  | String c s' => isSpace c && allSpace s'
  end.

(** [s.includes(sub)] *)
Fixpoint includes (sub s : string) : bool :=
  String.prefix sub s ||
  match s with
  | EmptyString => false
  | String _ s' => includes sub s'
  end.

(** [s.split(sep)] for a one-character separator. *)
Fixpoint split (sep : ascii) (s : string) : list string :=
  match s with
  | EmptyString => [EmptyString]
  | String c s' =>
      if Ascii.eqb c sep then EmptyString :: split sep s'
      else match split sep s' with
           | h :: t => String c h :: t
           | [] => [String c EmptyString]
           end
  end.

Definition nonEmpty (s : string) : bool :=
  match s with EmptyString => false | _ => true end.

(** [isValidPath]: a string whose trimmed form is not empty and which does
    not contain two consecutive dots.  Paths are strings by type here. *)
Definition isValidPath (path : string) : bool :=
  negb (allSpace path) && negb (includes ".." path).

(** [getPathParts = path => path.split('.').filter(Boolean)] *)
Definition getPathParts (path : string) : list string :=
  filter nonEmpty (split "."%char path).

(** [parts.join('.')] *)
Definition join (parts : list string) : string := String.concat "." parts.

(** [deepEquals] *)
Fixpoint deepEquals (a b : value) {struct a} : bool :=
  match a, b with
  | VUndefined, VUndefined => true
  | VNull, VNull => true
  | VBool x, VBool y => Bool.eqb x y
  | VNum x, VNum y => Z.eqb x y
  | VStr x, VStr y => String.eqb x y
  | VSym x, VSym y => Nat.eqb x y
  | VObj arrA fa, VObj arrB fb =>
      Bool.eqb arrA arrB &&
      Nat.eqb (List.length fa) (List.length fb) &&
      (fix every (l : list (string * value)) : bool :=
         match l with
         | [] => true
         | (key, va) :: l' =>
             match lookup key fb with
             | Some vb => deepEquals va vb
             | None => false
             end && every l'
         end) fa
  | _, _ => false
  end.

(** ** Reading and writing the tree *)

(** The traversal loop of [getState]. *)
Fixpoint get_path (parts : list string) (current defaultValue : value) : value :=
  match parts with
  | [] => current
  | part :: rest =>
      match get_prop current part with
      | VUndefined => defaultValue
      | next => get_path rest next defaultValue
      end
  end.

(** The child the write loop descends into: the existing record, or a fresh
    one when the segment is missing, null or not an object. *)
Definition descend (fields : list (string * value)) (part : string) : bool * list (string * value) :=
  match lookup part fields with
  | Some (VObj arr fs) => (arr, fs)
  | _ => (false, [])
  end.

(** The write loop of [_setStateImmediate] and [_processBatchedUpdates]: walk
    all segments but the last, replacing what is not a record by [{}], then
    assign the last segment.  With no segment at all the assignment is
    [current[undefined] = v], which creates the property named "undefined". *)
Fixpoint set_path (parts : list string) (v : value) (fields : list (string * value))
  : list (string * value) :=
  match parts with
  | [] => assign "undefined" v fields
  | [lastPart] => assign lastPart v fields
  | part :: rest =>
      let '(arr, child) := descend fields part in
      assign part (VObj arr (set_path rest v child)) fields
  end.

(** ** Callbacks *)

(** What a middleware or subscriber does: read the tree, write the tree,
    and finally return a value or throw. *)
Inductive prog : Type :=
| Return (result : value)
| Throw (message : string)
| DoGet (path : string) (defaultValue : value) (track : bool) (k : value -> prog)
| DoSet (path : string) (v : value) (k : prog).

(** The argument record a middleware receives. *)
Record mwArgs := {
  mw_path : string;
  mw_oldValue : value;
  mw_newValue : value;
  mw_context : value;
  mw_state : value
}.

Definition middlewareFn := mwArgs -> prog.

(** A function registered with [subscribeInternal]; [cb_id] is its identity
    as a member of a [Set]. *)
Record callback := { cb_id : nat; cb_body : prog }.

(** The object [{ callback, hierarchical }] that [subscribe] stores. *)
Record subscription := {
  sub_id : nat;
  sub_callback : value -> value -> string -> prog;
  hierarchical : bool
}.

(** An entry of the batch queue (its timestamp is left out). *)
Record update := { u_path : string; u_value : value; u_context : value }.

(** [console.debug], [console.info], [console.warn], [console.error] *)
Inductive level := LDebug | LInfo | LWarn | LError.

(** Ghost record of an invoked subscriber: the registry key it was found
    under, its identity and, for an external one, its arguments. *)
Inductive call :=
| InternalCall (subscribedPath : string) (id : nat)
| ExternalCall (subscribedPath : string) (id : nat)
               (newValue oldValue : value) (changedPath : string).

(** What is thrown: an [Error] made by a callback, or the [ReferenceError]
    of the runtime for a name that is not bound. *)
Inductive error :=
| JsError (message : string)
| ReferenceError (message : string).

(** ** The state manager *)

(** The fields of a [StateManager].  [state] is the root record, by its
    properties; the two registries are maps from a path to a set, in
    insertion order; [currentTracking] is [null] or a set of paths.
    [maxUpdateDepth] and [updateDepth] are set by the constructor and read
    nowhere in the source.  The snapshot [initialState] kept for [reset] is
    left out. *)
Record StateManager := {
  state : list (string * value);
  middleware : list middlewareFn;
  subscribers : list (string * list callback);
  externalSubscribers : list (string * list subscription);
  currentTracking : option (list string);
  isUpdating : bool;
  maxUpdateDepth : nat;
  updateDepth : nat;
  currentlyUpdating : list string;
  isBatching : bool;
  batchQueue : list update;
  batchedPaths : list string;
  console : list (level * string);
  calls : list call
}.

(** [new StateManager(initialState, middleware)] *)
Definition newStateManager (initialState : list (string * value))
           (mws : list middlewareFn) : StateManager :=
  {| state := initialState;
     middleware := mws;
     subscribers := [];
     externalSubscribers := [];
     currentTracking := None;
     isUpdating := false;
     maxUpdateDepth := 50;
     updateDepth := 0;
     currentlyUpdating := [];
     isBatching := false;
     batchQueue := [];
     batchedPaths := [];
     console := [(LInfo, "StateManager initialized")];
     calls := [] |}.

(** Assignments to one field (or, for the batch, to its three fields). *)
Definition with_state (x : list (string * value)) (s : StateManager) : StateManager :=
  {| state := x; middleware := middleware s; subscribers := subscribers s;
     externalSubscribers := externalSubscribers s; currentTracking := currentTracking s;
     isUpdating := isUpdating s; maxUpdateDepth := maxUpdateDepth s;
     updateDepth := updateDepth s; currentlyUpdating := currentlyUpdating s;
     isBatching := isBatching s; batchQueue := batchQueue s;
     batchedPaths := batchedPaths s; console := console s; calls := calls s |}.

Definition with_subscribers (x : list (string * list callback)) (s : StateManager) : StateManager :=
  {| state := state s; middleware := middleware s; subscribers := x;
     externalSubscribers := externalSubscribers s; currentTracking := currentTracking s;
     isUpdating := isUpdating s; maxUpdateDepth := maxUpdateDepth s;
     updateDepth := updateDepth s; currentlyUpdating := currentlyUpdating s;
     isBatching := isBatching s; batchQueue := batchQueue s;
     batchedPaths := batchedPaths s; console := console s; calls := calls s |}.

Definition with_externalSubscribers (x : list (string * list subscription)) (s : StateManager) : StateManager :=
  {| state := state s; middleware := middleware s; subscribers := subscribers s;
     externalSubscribers := x; currentTracking := currentTracking s;
     isUpdating := isUpdating s; maxUpdateDepth := maxUpdateDepth s;
     updateDepth := updateDepth s; currentlyUpdating := currentlyUpdating s;
     isBatching := isBatching s; batchQueue := batchQueue s;
     batchedPaths := batchedPaths s; console := console s; calls := calls s |}.

Definition with_currentTracking (x : option (list string)) (s : StateManager) : StateManager :=
  {| state := state s; middleware := middleware s; subscribers := subscribers s;
     externalSubscribers := externalSubscribers s; currentTracking := x;
     isUpdating := isUpdating s; maxUpdateDepth := maxUpdateDepth s;
     updateDepth := updateDepth s; currentlyUpdating := currentlyUpdating s;
     isBatching := isBatching s; batchQueue := batchQueue s;
     batchedPaths := batchedPaths s; console := console s; calls := calls s |}.

Definition with_isUpdating (x : bool) (s : StateManager) : StateManager :=
  {| state := state s; middleware := middleware s; subscribers := subscribers s;
     externalSubscribers := externalSubscribers s; currentTracking := currentTracking s;
     isUpdating := x; maxUpdateDepth := maxUpdateDepth s;
     updateDepth := updateDepth s; currentlyUpdating := currentlyUpdating s;
     isBatching := isBatching s; batchQueue := batchQueue s;
     batchedPaths := batchedPaths s; console := console s; calls := calls s |}.

Definition with_currentlyUpdating (x : list string) (s : StateManager) : StateManager :=
  {| state := state s; middleware := middleware s; subscribers := subscribers s;
     externalSubscribers := externalSubscribers s; currentTracking := currentTracking s;
     isUpdating := isUpdating s; maxUpdateDepth := maxUpdateDepth s;
     updateDepth := updateDepth s; currentlyUpdating := x;
     isBatching := isBatching s; batchQueue := batchQueue s;
     batchedPaths := batchedPaths s; console := console s; calls := calls s |}.

Definition with_batch (active : bool) (queue : list update) (paths : list string)
           (s : StateManager) : StateManager :=
  {| state := state s; middleware := middleware s; subscribers := subscribers s;
     externalSubscribers := externalSubscribers s; currentTracking := currentTracking s;
     isUpdating := isUpdating s; maxUpdateDepth := maxUpdateDepth s;
     updateDepth := updateDepth s; currentlyUpdating := currentlyUpdating s;
     isBatching := active; batchQueue := queue;
     batchedPaths := paths; console := console s; calls := calls s |}.

(** [console.debug / info / warn / error (log.x (message, ...))] *)
Definition log (lv : level) (message : string) (s : StateManager) : StateManager :=
  {| state := state s; middleware := middleware s; subscribers := subscribers s;
     externalSubscribers := externalSubscribers s; currentTracking := currentTracking s;
     isUpdating := isUpdating s; maxUpdateDepth := maxUpdateDepth s;
     updateDepth := updateDepth s; currentlyUpdating := currentlyUpdating s;
     isBatching := isBatching s; batchQueue := batchQueue s;
     batchedPaths := batchedPaths s; console := console s ++ [(lv, message)];
     calls := calls s |}.

(** The ghost record of a call about to be made. *)
Definition record (c : call) (s : StateManager) : StateManager :=
  {| state := state s; middleware := middleware s; subscribers := subscribers s;
     externalSubscribers := externalSubscribers s; currentTracking := currentTracking s;
     isUpdating := isUpdating s; maxUpdateDepth := maxUpdateDepth s;
     updateDepth := updateDepth s; currentlyUpdating := currentlyUpdating s;
     isBatching := isBatching s; batchQueue := batchQueue s;
     batchedPaths := batchedPaths s; console := console s; calls := calls s ++ [c] |}.

(** ** Outcomes of a call *)

(** How a call ends: normally, with a thrown error, or beyond the bound on
    the stack.  The state manager is threaded through the first two. *)
Inductive result (A : Type) : Type :=
| Ok (a : A) (s : StateManager)
| Exn (e : error) (s : StateManager)
| OutOfFuel.

Arguments Exn {A} e s.
Arguments OutOfFuel {A}.

(** A method of the state manager. *)
Definition M (A : Type) : Type := StateManager -> result A.

(** [return a] *)
Definition ret (A : Type) (a : A) : M A := fun s => Ok a s.

(** [m; f]: an error of [m] skips [f]. *)
Definition bind (A B : Type) (m : M A) (f : A -> M B) : M B :=
  fun s =>
    match m s with
    | Ok a s' => f a s'
    | Exn e s' => Exn e s'
    | OutOfFuel => OutOfFuel
    end.

(** [try { m } catch (error) { handler }] *)
Definition tryCatch (A : Type) (m : M A) (handler : error -> M A) : M A :=
  fun s =>
    match m s with
    | Ok a s' => Ok a s'
    | Exn e s' => handler e s'
    | OutOfFuel => OutOfFuel
    end.

(** An assignment to fields of [this]. *)
Definition modify (f : StateManager -> StateManager) : M unit := fun s => Ok tt (f s).

(** [throw e] *)
Definition throw (A : Type) (e : error) : M A := fun s => Exn e s.

Arguments throw {A} e.

Declare Scope js_scope.
Delimit Scope js_scope with js.
Notation "x <- m ;; k" := (bind m (fun x => k))
  (at level 61, m at next level, right associativity) : js_scope.
Notation "m ;;; k" := (bind m (fun _ => k))
  (at level 61, right associativity) : js_scope.
Open Scope js_scope.

(** [list.forEach(f)]: stops at the first exception that escapes [f]. *)
Fixpoint forEach (A : Type) (l : list A) (f : A -> M unit) : M unit :=
  match l with
  | [] => ret tt
  | x :: l' => f x ;;; forEach l' f
  end.

(** ** Reading *)

(** [this.currentTracking?.add(path)] *)
Definition trackPath (path : string) (s : StateManager) : StateManager :=
  match currentTracking s with
  | Some deps => with_currentTracking (Some (set_add path deps)) s
  | None => s
  end.

(** A default parameter takes its default when the argument is [undefined]. *)
Definition orDefault (dflt arg : value) : value :=
  match arg with VUndefined => dflt | _ => arg end.

(** [getState(path, defaultValue = null, track = true)] *)
Definition getState (path : string) (defaultValue : value) (track : bool)
           (s : StateManager) : value * StateManager :=
  let defaultValue := orDefault VNull defaultValue in
  if negb (isValidPath path) then (defaultValue, s)
  else
    let s1 := if track then trackPath path s else s in
    (get_path (getPathParts path) (VObj false (state s)) defaultValue, s1).

(** [getState] as a step of a method. *)
Definition getStateM (path : string) (defaultValue : value) (track : bool) : M value :=
  fun s => let (v, s') := getState path defaultValue track s in Ok v s'.

(** ** Subscribing *)

(** [Set.has] on a set of functions. *)
Definition cb_in (c : callback) (subs : list callback) : bool :=
  existsb (fun c' => Nat.eqb (cb_id c) (cb_id c')) subs.

(** [Set.add] on a set of functions. *)
Definition cb_add (c : callback) (subs : list callback) : list callback :=
  if cb_in c subs then subs else subs ++ [c].

(** The members of a set that may not be there yet. *)
Definition orEmpty (A : Type) (o : option (list A)) : list A :=
  match o with Some l => l | None => [] end.

(** [subscribeInternal(path, callback)] *)
Definition subscribeInternal (path : string) (c : callback) (s : StateManager) : StateManager :=
  with_subscribers
    (assign path (cb_add c (orEmpty (lookup path (subscribers s)))) (subscribers s)) s.

(** The closure [subscribeInternal] returns. *)
Definition unsubscribeInternal (path : string) (c : callback) (s : StateManager) : StateManager :=
  match lookup path (subscribers s) with
  | Some subs =>
      let subs' := filter (fun c' => negb (Nat.eqb (cb_id c) (cb_id c'))) subs in
      match subs' with
      | [] => with_subscribers (remove path (subscribers s)) s
      | _ => with_subscribers (assign path subs' (subscribers s)) s
      end
  | None => s
  end.

(** [subscribe(path, callback, hierarchical = true)]: the subscription object
    is new, so it always joins the set. *)
Definition subscribe (path : string) (sub : subscription) (s : StateManager) : StateManager :=
  with_externalSubscribers
    (assign path (orEmpty (lookup path (externalSubscribers s)) ++ [sub])%list
            (externalSubscribers s)) s.

(** [subscribeExact(path, callback)] *)
Definition subscribeExact (path : string) (id : nat)
           (f : value -> value -> string -> prog) (s : StateManager) : StateManager :=
  subscribe path {| sub_id := id; sub_callback := f; hierarchical := false |} s.

(** The closure [subscribe] returns. *)
Definition unsubscribe (path : string) (id : nat) (s : StateManager) : StateManager :=
  match lookup path (externalSubscribers s) with
  | Some subs =>
      let subs' := filter (fun x => negb (Nat.eqb id (sub_id x))) subs in
      match subs' with
      | [] => with_externalSubscribers (remove path (externalSubscribers s)) s
      | _ => with_externalSubscribers (assign path subs' (externalSubscribers s)) s
      end
  | None => s
  end.

(** [startTracking()] / [endTracking()] *)
Definition startTracking (s : StateManager) : StateManager :=
  with_currentTracking (Some []) s.

Definition endTracking (s : StateManager) : list string * StateManager :=
  (orEmpty (currentTracking s), with_currentTracking None s).

(** ** Batching: the queue *)

(** [beginBatch()] *)
Definition beginBatch (s : StateManager) : StateManager :=
  with_batch true [] [] (log LDebug "Manual batch started" s).

(** [clearBatch()] *)
Definition clearBatch (s : StateManager) : StateManager :=
  if isBatching s then with_batch (isBatching s) [] [] (log LInfo "Clearing current batch" s)
  else s.

(** [isBatchingActive()] *)
Definition isBatchingActive (s : StateManager) : bool := isBatching s.

(** [getBatchQueueSize()] *)
Definition getBatchQueueSize (s : StateManager) : nat := List.length (batchQueue s).

(** [_queueBatchedUpdate(path, value, context)] *)
Definition _queueBatchedUpdate (path : string) (v context : value)
           (s : StateManager) : StateManager :=
  with_batch (isBatching s)
    (filter (fun u => negb (String.eqb (u_path u) path)) (batchQueue s)
       ++ [{| u_path := path; u_value := v; u_context := context |}])%list
    (set_add path (batchedPaths s)) s.

(** [_hasCircularUpdate(path)] *)
Definition _hasCircularUpdate (path : string) (s : StateManager) : bool * StateManager :=
  if set_has path (currentlyUpdating s)
  then (true, log LWarn "Circular dependency detected" s)
  else (false, s).

(** The body of [newTracking.forEach] in [_triggerPathSubscribers]:
    subscribe the callback to a path it read, unless it already is. *)
Definition resubscribe (c : callback) (s : StateManager) (newPath : string) : StateManager :=
  match lookup newPath (subscribers s) with
  | Some existingSubs =>
      if cb_in c existingSubs then s else subscribeInternal newPath c s
  | None => subscribeInternal newPath c s
  end.

(** [path ? path + '.' : ''] *)
Definition descendantPrefix (path : string) : string :=
  match path with EmptyString => EmptyString | _ => (path ++ ".")%string end.

(** [startsWith] *)
Definition startsWith (s pre : string) : bool := String.prefix pre s.

(** The ancestors of a path, nearest first: [parts.slice(0, i).join('.')]
    for [i = parts.length - 1] down to [1]. *)
Definition ancestorPaths (parts : list string) : list string :=
  map (fun i => join (firstn i parts)) (rev (seq 1 (List.length parts - 1))).

(** [parts.slice(0, i).join('.')] for [i = 1] up to [parts.length]. *)
Definition parentPathsOf (parts : list string) : list string :=
  map (fun i => join (firstn i parts)) (seq 1 (List.length parts)).

(** [new Set([...a, ...b])] *)
Definition set_of (l : list string) : list string := fold_left (fun acc x => set_add x acc) l [].

(** ** The update engine

    Everything a callback can reach again through [setState] is written over
    [setState_rec], the [setState] of the next stack frame. *)

Section Engine.

Variable setState_rec : string -> value -> value -> M unit.

(** Running a callback body.  A [setState] issued by a callback takes the
    default [context = {}]. *)
Fixpoint run_prog (p : prog) : M value :=
  match p with
  | Return v => ret v
  | Throw message => throw (JsError message)
  | DoGet path d track k =>
      fun s => let (v, s') := getState path d track s in run_prog (k v) s'
  | DoSet path v k => setState_rec path v emptyRecord ;;; run_prog k
  end.

(** The middleware loop shared by [_setStateImmediate] and
    [_processBatchedUpdates]; [onError] is the message of the catch block. *)
Fixpoint runMiddleware (mws : list middlewareFn) (onError : string)
         (path : string) (oldValue finalValue context : value) : M value :=
  match mws with
  | [] => ret finalValue
  | mw :: rest =>
      fun s =>
        let args := {| mw_path := path; mw_oldValue := oldValue;
                       mw_newValue := finalValue; mw_context := context;
                       mw_state := VObj false (state s) |} in
        match run_prog (mw args) s with
        | Ok r s1 =>
            runMiddleware rest onError path oldValue
                          (if isUndefined r then finalValue else r) context s1
        | Exn _ s1 =>
            runMiddleware rest onError path oldValue finalValue context
                          (log LError onError s1)
        | OutOfFuel => OutOfFuel
        end
  end.

(** The body of the [forEach] of [_triggerPathSubscribers].  [oldTracking]
    is a [const] of the [try] block, so the assignment in the [catch] block
    reads an unbound name: after logging, the handler itself throws a
    [ReferenceError].  The callback's own tracking set is read back from
    [currentTracking] when it returns. *)
Definition triggerCallback (path : string) (c : callback) : M unit :=
  fun s =>
    let oldTracking := currentTracking s in
    let s1 := record (InternalCall path (cb_id c)) (with_currentTracking (Some []) s) in
    match run_prog (cb_body c) s1 with
    | Ok _ s2 =>
        let newTracking := orEmpty (currentTracking s2) in
        let s3 := with_currentTracking oldTracking s2 in
        Ok tt (fold_left (resubscribe c) newTracking s3)
    | Exn _ s2 =>
        Exn (ReferenceError "oldTracking is not defined")
            (log LError "Subscriber error:" s2)
    | OutOfFuel => OutOfFuel
    end.

(** [_triggerPathSubscribers(path)] *)
Definition _triggerPathSubscribers (path : string) : M unit :=
  fun s =>
    match lookup path (subscribers s) with
    | Some (c :: subs) =>
        forEach (c :: subs) (triggerCallback path)
                (log LDebug "Triggering subscribers" s)
    | _ => Ok tt s
    end.

(** [_notifySubscribers(path, newValue, oldValue)]: the exact path, its
    ancestors nearest first, then every registered path below it. *)
Definition _notifySubscribers (path : string) (newValue oldValue : value) : M unit :=
  _triggerPathSubscribers path ;;;
  forEach (ancestorPaths (getPathParts path)) _triggerPathSubscribers ;;;
  fun s =>
    let pre := descendantPrefix path in
    let allPaths := set_of (keys (subscribers s) ++ keys (externalSubscribers s))%list in
    forEach allPaths
            (fun subscriberPath =>
               if startsWith subscriberPath pre && negb (String.eqb subscriberPath path)
               then _triggerPathSubscribers subscriberPath
               else ret tt) s.

(** The test [shouldNotify] of [_notifyExternalSubscribers]. *)
Definition shouldNotify (sub : subscription) (changedPath subscribedPath : string) : bool :=
  if hierarchical sub
  then String.eqb changedPath subscribedPath
       || startsWith changedPath (subscribedPath ++ ".")%string
  else String.eqb changedPath subscribedPath.

(** [_notifyExternalSubscribers(changedPath, newValue, oldValue)] *)
Definition _notifyExternalSubscribers (changedPath : string) (newValue oldValue : value)
  : M unit :=
  fun s =>
    forEach (externalSubscribers s)
      (fun entry =>
         let '(subscribedPath, subscriptions) := entry in
         forEach subscriptions
           (fun sub =>
              if shouldNotify sub changedPath subscribedPath
              then
                tryCatch
                  (modify (record (ExternalCall subscribedPath (sub_id sub)
                                                newValue oldValue changedPath)) ;;;
                   run_prog (sub_callback sub newValue oldValue changedPath) ;;;
                   ret tt)
                  (fun _ => modify (log LError "External subscriber error:"))
              else ret tt)) s.

(** [_setStateImmediate(path, value, context)] *)
Definition _setStateImmediate (path : string) (v context : value) : M unit :=
  oldValue <- getStateM path VNull true ;;
  finalValue <- (fun s => runMiddleware (middleware s) "Middleware error"
                                        path oldValue v context s) ;;
  if deepEquals oldValue finalValue
  then modify (log LDebug "State unchanged, skipping update")
  else
    modify (log LDebug "State updated") ;;;
    modify (fun s => with_state (set_path (getPathParts path) finalValue (state s)) s) ;;;
    fun s =>
      if isUpdating s then Ok tt s
      else
        (modify (with_isUpdating true) ;;;
         modify (fun s => with_currentlyUpdating (set_add path (currentlyUpdating s)) s) ;;;
         _notifySubscribers path finalValue oldValue ;;;
         _notifyExternalSubscribers path finalValue oldValue ;;;
         modify (fun s => with_currentlyUpdating (set_delete path (currentlyUpdating s)) s) ;;;
         modify (with_isUpdating false)) s.

(** [setState(path, value, context = {})] *)
Definition setState_body (path : string) (v context : value) : M unit :=
  fun s =>
    let s0 := log LDebug "State change initiated" s in
    if negb (isValidPath path) then Ok tt s0
    else
      let (circular, s1) := _hasCircularUpdate path s0 in
      if circular then Ok tt s1
      else if isBatching s1 then Ok tt (_queueBatchedUpdate path v context s1)
      else _setStateImmediate path v context s1.

(** One turn of the [pathGroups.forEach] of [_processBatchedUpdates]; the
    list of applied paths is threaded through. *)
Definition applyBatchedUpdate (u : update) (applied : list string) : M (list string) :=
  oldValue <- getStateM (u_path u) VNull true ;;
  finalValue <- (fun s => runMiddleware (middleware s) "Middleware error in batch"
                                        (u_path u) oldValue (u_value u) (u_context u) s) ;;
  if deepEquals oldValue finalValue then ret applied
  else
    modify (fun s => with_state (set_path (getPathParts (u_path u)) finalValue (state s)) s) ;;;
    ret (applied ++ [u_path u])%list.

(** [pathGroups.forEach(update => ...)] *)
Fixpoint applyBatchedUpdates (us : list update) (applied : list string) : M (list string) :=
  match us with
  | [] => ret applied
  | u :: rest => applied' <- applyBatchedUpdate u applied ;; applyBatchedUpdates rest applied'
  end.

(** The notification of one parent path at the end of
    [_processBatchedUpdates]. *)
Definition notifyParentPath (path : string) : M unit :=
  (fun s => if has path (subscribers s) then _triggerPathSubscribers path s else Ok tt s) ;;;
  fun s =>
    match lookup path (externalSubscribers s) with
    | Some subscriptions =>
        forEach subscriptions
          (fun sub =>
             tryCatch
               (current <- getStateM path VNull true ;;
                modify (record (ExternalCall path (sub_id sub) current VNull path)) ;;;
                run_prog (sub_callback sub current VNull path) ;;;
                ret tt)
               (fun _ => modify (log LError "External subscriber error:"))) s
    | None => Ok tt s
    end.

(** [_processBatchedUpdates()] *)
Definition _processBatchedUpdates : M unit :=
  fun s =>
    let updates := batchQueue s in
    let s1 := with_batch (isBatching s) [] [] s in
    let pathGroups :=
      fold_left (fun groups u => assign (u_path u) u groups) updates [] in
    let wasUpdating := isUpdating s1 in
    (modify (with_isUpdating true) ;;;
     appliedUpdates <- applyBatchedUpdates (map snd pathGroups) [] ;;
     modify (with_isUpdating wasUpdating) ;;;
     let parentPaths :=
       fold_left (fun acc path =>
                    fold_left (fun acc' p => set_add p acc') (parentPathsOf (getPathParts path)) acc)
                 appliedUpdates [] in
     forEach parentPaths notifyParentPath) s1.

(** [endBatch()] *)
Definition endBatch_body : M unit :=
  fun s =>
    if negb (isBatching s)
    then Ok tt (log LWarn "endBatch() called without beginBatch()" s)
    else
      let s1 := with_batch false (batchQueue s) (batchedPaths s)
                           (log LDebug "Manual batch ending" s) in
      match batchQueue s1 with
      | [] => Ok tt s1
      | _ => _processBatchedUpdates s1
      end.

End Engine.

(** [setState] with a bound on the depth of re-entrant calls. *)
Fixpoint setState (fuel : nat) (path : string) (v context : value) : M unit :=
  match fuel with
  | O => fun _ => OutOfFuel
  | S fuel' => setState_body (setState fuel') path v context
  end.

(** [endBatch]: the callbacks it runs reach [setState] with [fuel] frames. *)
Definition endBatch (fuel : nat) : M unit := endBatch_body (setState fuel).

(** ** Batches run by a callback, and [reset] *)

(** [executeBatch(callback)] for a callback that returns no thenable. *)
Definition executeBatch (fuel : nat) (callback : prog) : M value :=
  fun s =>
    if isBatching s then run_prog (setState fuel) callback s
    else
      (modify beginBatch ;;;
       tryCatch
         (result <- run_prog (setState fuel) callback ;;
          endBatch fuel ;;;
          ret result)
         (fun error => endBatch fuel ;;; throw error)) s.

(** [JSON.parse(JSON.stringify(v))]; [None] where [JSON.stringify] answers
    [undefined].  A property of a record that holds [undefined] or a
    symbol is left out; in an array it becomes [null].  [NaN] becomes
    [null]. *)
Fixpoint jsonClone (v : value) : option value :=
  match v with
  | VUndefined | VSym _ => None
  | VNaN => Some VNull
  | VObj arr fs =>
      Some (VObj arr
        ((fix fields (l : list (string * value)) : list (string * value) :=
            match l with
            | [] => []
            | (k, x) :: l' =>
                match jsonClone x with
                | Some y => (k, y) :: fields l'
                | None => if arr then (k, VNull) :: fields l' else fields l'
                end
            end) fs))
  | _ => Some v
  end.

(** The clone of a root record, by its properties. *)
Definition jsonFields (fs : list (string * value)) : list (string * value) :=
  match jsonClone (VObj false fs) with
  | Some (VObj _ fs') => fs'
  | _ => []
  end.

(** [reset()]; [initialState] is the snapshot the constructor took. *)
Definition reset (initialState : list (string * value)) (s : StateManager) : StateManager :=
  let s1 := log LInfo "State reset to initial state" s in
  let s2 := if isBatching s1 then with_batch false [] [] s1 else s1 in
  with_state (jsonFields initialState) s2.

(** * The async resolver ([createPromisify]) *)

Module AsyncResolver.

(** What [promisify] is handed: an object whose [then] is truthy (known by
    its identity), or anything else. *)
Inductive arg := Thenable (id : nat) | Plain (v : value).

(** What it hands back: the thenable itself, or the [n]-th promise made
    by [Promise.resolve]. *)
Inductive promise := Given (id : nat) | Fresh (n : nat) (v : value).

(** What [setTimeout(..., 0)] has queued. *)
Inductive task := CheckAllComplete | Call (callback : nat).

(** The variables the closures of [createPromisify] share, the promises
    that carry the [finally] handler, the timer queue, and a ghost record
    of the callbacks run. *)
Record resolver := {
  activePromises : list promise;
  isTracking : bool;
  subscribers : list nat;
  allocated : nat;
  reactions : list promise;
  timers : list task;
  invoked : list nat
}.

Definition newResolver : resolver :=
  {| activePromises := []; isTracking := false; subscribers := [];
     allocated := 0; reactions := []; timers := []; invoked := [] |}.

Definition promise_eqb (p q : promise) : bool :=
  match p, q with
  | Given i, Given j => Nat.eqb i j
  | Fresh n _, Fresh m _ => Nat.eqb n m
  | _, _ => false
  end.

(** [promise === result] *)
Definition sameObject (p : promise) (result : arg) : bool :=
  match p, result with
  | Given i, Thenable j => Nat.eqb i j
  | _, _ => false
  end.

Definition add (p : promise) (l : list promise) : list promise :=
  if existsb (promise_eqb p) l then l else l ++ [p].

(** [result?.then ? result : Promise.resolve(result)] *)
Definition toPromise (result : arg) (r : resolver) : promise * resolver :=
  match result with
  | Thenable id => (Given id, r)
  | Plain v =>
      (Fresh (allocated r) v,
       {| activePromises := activePromises r; isTracking := isTracking r;
          subscribers := subscribers r; allocated := S (allocated r);
          reactions := reactions r; timers := timers r; invoked := invoked r |})
  end.

(** [trackingPromisify(result)] *)
Definition trackingPromisify (result : arg) (r : resolver) : promise * resolver :=
  let (p, r1) := toPromise result r in
  if isTracking r1 && negb (sameObject p result)
  then (p,
        {| activePromises := add p (activePromises r1); isTracking := isTracking r1;
           subscribers := subscribers r1; allocated := allocated r1;
           reactions := reactions r1 ++ [p]; timers := timers r1;
           invoked := invoked r1 |})
  else (p, r1).

(** The handler given to [promise.finally], run when [p] settles. *)
Definition settled (p : promise) (r : resolver) : resolver :=
  if existsb (promise_eqb p) (reactions r)
  then {| activePromises := filter (fun q => negb (promise_eqb p q)) (activePromises r);
          isTracking := isTracking r; subscribers := subscribers r;
          allocated := allocated r;
          reactions := filter (fun q => negb (promise_eqb p q)) (reactions r);
          timers := timers r ++ [CheckAllComplete]; invoked := invoked r |}
  else r.

(** [checkAllComplete()] *)
Definition checkAllComplete (r : resolver) : resolver :=
  match activePromises r, subscribers r with
  | [], _ :: _ =>
      {| activePromises := activePromises r; isTracking := isTracking r;
         subscribers := subscribers r; allocated := allocated r;
         reactions := reactions r; timers := timers r;
         invoked := invoked r ++ subscribers r |}
  | _, _ => r
  end.

(** [startTracking()] *)
Definition startTracking (r : resolver) : resolver :=
  {| activePromises := []; isTracking := true; subscribers := subscribers r;
     allocated := allocated r; reactions := reactions r; timers := timers r;
     invoked := invoked r |}.

(** [stopTracking()] *)
Definition stopTracking (r : resolver) : resolver :=
  {| activePromises := activePromises r; isTracking := false; subscribers := [];
     allocated := allocated r; reactions := reactions r; timers := timers r;
     invoked := invoked r |}.

(** [onAllComplete(callback)] *)
Definition onAllComplete (callback : nat) (r : resolver) : resolver :=
  let subs := if existsb (Nat.eqb callback) (subscribers r)
              then subscribers r else subscribers r ++ [callback] in
  {| activePromises := activePromises r; isTracking := isTracking r;
     subscribers := subs; allocated := allocated r; reactions := reactions r;
     timers := match activePromises r with
               | [] => timers r ++ [Call callback]
               | _ => timers r
               end;
     invoked := invoked r |}.

End AsyncResolver.

(** ** The resolver over time *)

(** The closure [onAllComplete] returns: [subscribers.delete(callback)]. *)
Definition offAllComplete (callback : nat) (r : AsyncResolver.resolver)
  : AsyncResolver.resolver :=
  {| AsyncResolver.activePromises := AsyncResolver.activePromises r;
     AsyncResolver.isTracking := AsyncResolver.isTracking r;
     AsyncResolver.subscribers :=
       filter (fun c => negb (Nat.eqb callback c)) (AsyncResolver.subscribers r);
     AsyncResolver.allocated := AsyncResolver.allocated r;
     AsyncResolver.reactions := AsyncResolver.reactions r;
     AsyncResolver.timers := AsyncResolver.timers r;
     AsyncResolver.invoked := AsyncResolver.invoked r |}.

(** What can happen to a resolver: a call of one of its functions, the
    settling of a promise, a queued check coming due. *)
Inductive resolverEvent :=
| Promisify (result : AsyncResolver.arg)
| Settles (p : AsyncResolver.promise)
| StartTracking
| StopTracking
| OnAllComplete (callback : nat)
| OffAllComplete (callback : nat)
| CheckComesDue.

Definition resolverStep (r : AsyncResolver.resolver) (e : resolverEvent)
  : AsyncResolver.resolver :=
  match e with
  | Promisify result => snd (AsyncResolver.trackingPromisify result r)
  | Settles p => AsyncResolver.settled p r
  | StartTracking => AsyncResolver.startTracking r
  | StopTracking => AsyncResolver.stopTracking r
  | OnAllComplete callback => AsyncResolver.onAllComplete callback r
  | OffAllComplete callback => offAllComplete callback r
  | CheckComesDue => AsyncResolver.checkAllComplete r
  end.

(** The resolver after a history of events, from its creation. *)
Definition resolverAfter (history : list resolverEvent) : AsyncResolver.resolver :=
  fold_left resolverStep history AsyncResolver.newResolver.


(** * Local state of a component ([_createComponentContext]) *)

Module Component.

(** The pair [newState] returns: both closures hold the path, the getter
    also the initial value as its default. *)
Record accessors := { statePath : string; initialValue : value }.

(** [`__local.${componentId}.${key}`] *)
Definition localPath (componentId key : string) : string :=
  ("__local." ++ componentId ++ "." ++ key)%string.

(** [context.newState(key, initialValue)].  [symbols] counts the calls of
    [Symbol()] so far: each call makes a symbol no earlier call made.  The
    result carries the accessors, the set [componentStates] and the new
    count. *)
Definition newState (fuel : nat) (componentId key : string) (initial : value)
           (componentStates : list string) (symbols : nat)
  : M (accessors * list string * nat) :=
  fun s =>
    let path := localPath componentId key in
    let notFound := VSym symbols in
    let (current, s1) := getState path notFound true s in
    let otherNotFound := VSym (S symbols) in
    let written :=
      if strictEquals current otherNotFound
      then setState fuel path initial emptyRecord s1
      else Ok tt s1 in
    match written with
    | Ok _ s2 =>
        Ok ({| statePath := path; initialValue := initial |},
            set_add path componentStates, S (S symbols)) s2
    | Exn e s2 => Exn e s2
    | OutOfFuel => OutOfFuel
    end.

(** The getter [() => getState(statePath, initialValue)] *)
Definition getter (a : accessors) (s : StateManager) : value * StateManager :=
  getState (statePath a) (initialValue a) true s.

(** The setter [value => setState(statePath, value)] *)
Definition setter (fuel : nat) (a : accessors) (v : value) : M unit :=
  setState fuel (statePath a) v emptyRecord.

End Component.

(** * Local state at [cleanup] ([ComponentManager.cleanup]) *)

(** What [if (v)] takes for true. *)
Definition truthy (v : value) : bool :=
  match v with
  | VUndefined | VNull => false
  | VBool b => b
  | VNum n => negb (Z.eqb n 0)
  | VStr s => nonEmpty s
  | VSym _ => true
  | VObj _ _ => true
  | VNaN => false
  end.

(** The body of [states.forEach] in [cleanup(element)]: walk all parts
    but the last through truthy properties, giving up at the first that is
    not; then delete the last part.  A truthy primitive has no property
    to walk into, and deleting a property of it does nothing. *)
Fixpoint deletePath (pathParts : list string) (fields : list (string * value))
  : list (string * value) :=
  match pathParts with
  | [] => remove "undefined" fields
  | [lastPart] => remove lastPart fields
  | part :: rest =>
      let next := get_prop (VObj false fields) part in
      if truthy next
      then match next with
           | VObj arr child => assign part (VObj arr (deletePath rest child)) fields
           | _ => fields
           end
      else fields
  end.

(** The part of [cleanup(element)] that touches the state manager:
    [states] is the set [componentStates.get(element)].  The tree is
    edited directly; no subscriber hears of it. *)
Definition cleanupStates (states : list string) (s : StateManager) : StateManager :=
  with_state
    (fold_left (fun fields statePath => deletePath (split "." statePath) fields)
               states (state s)) s.


(** * Reactive text and children bindings of the renderer *)

Module Renderer.

(** What one run of the bound function comes to: a value, a thenable
    that later resolves to a value or rejects, or an exception. *)
Inductive outcome :=
| Returns (v : value)
| Resolves (v : value)
| Rejects
| Throws.

(** The element's [textContent] (the value assigned, before the DOM turns
    it into a string) with the variables of the closure [updateText]. *)
Record textBinding := {
  textContent : value;
  lastTextValue : value;
  textInitialized : bool;
  textErrors : list string
}.

(** [_handleReactiveText]: the state before the first run. *)
Definition newTextBinding (content : value) : textBinding :=
  {| textContent := content; lastTextValue := VNull;
     textInitialized := false; textErrors := [] |}.

(** [if (!isInitialized || result !== lastTextValue) { ... }]; two records
    are taken to be different objects. *)
Definition applyText (result : value) (b : textBinding) : textBinding :=
  if negb (textInitialized b) || negb (strictEquals result (lastTextValue b))
  then {| textContent := result; lastTextValue := result;
          textInitialized := true; textErrors := textErrors b |}
  else b.

Definition textError (message : string) (b : textBinding) : textBinding :=
  {| textContent := textContent b; lastTextValue := lastTextValue b;
     textInitialized := textInitialized b; textErrors := textErrors b ++ [message] |}.

(** One run of [updateText], followed to the settling of the thenable
    when the function returns one. *)
Definition updateText (o : outcome) (b : textBinding) : textBinding :=
  match o with
  | Returns result => applyText result b
  | Resolves resolvedText => applyText resolvedText b
  | Rejects => textError "Error in async reactive text:" b
  | Throws => textError "Error in reactive text function:" b
  end.

(** The element's children (the description last rendered into it) with
    the variables of the closure [updateChildren]. *)
Record childrenBinding := {
  children : value;
  lastChildrenResult : value;
  childrenInitialized : bool;
  childrenErrors : list string
}.

Definition newChildrenBinding (content : value) : childrenBinding :=
  {| children := content; lastChildrenResult := VNull;
     childrenInitialized := false; childrenErrors := [] |}.

(** [result !== "ignore"] *)
Definition notIgnore (result : value) : bool :=
  negb (strictEquals result (VStr "ignore")).

(** [_updateChildren(element, children)]: nothing for the sentinel,
    otherwise the old children are replaced by the rendered ones. *)
Definition _updateChildren (result : value) (b : childrenBinding) : childrenBinding :=
  if notIgnore result
  then {| children := result; lastChildrenResult := lastChildrenResult b;
          childrenInitialized := childrenInitialized b;
          childrenErrors := childrenErrors b |}
  else b.

(** [if (result !== "ignore" && (!isInitialized || !deepEquals(result,
    lastChildrenResult))) { ... }] *)
Definition applyChildren (result : value) (b : childrenBinding) : childrenBinding :=
  if notIgnore result
     && (negb (childrenInitialized b) || negb (deepEquals result (lastChildrenResult b)))
  then
    let b1 := _updateChildren result b in
    {| children := children b1; lastChildrenResult := result;
       childrenInitialized := true; childrenErrors := childrenErrors b1 |}
  else b.

Definition childrenError (message : string) (b : childrenBinding) : childrenBinding :=
  {| children := children b; lastChildrenResult := lastChildrenResult b;
     childrenInitialized := childrenInitialized b;
     childrenErrors := childrenErrors b ++ [message] |}.

(** One run of [updateChildren] of [_handleReactiveChildren]. *)
Definition updateChildren (o : outcome) (b : childrenBinding) : childrenBinding :=
  match o with
  | Returns result => applyChildren result b
  | Resolves resolvedResult => applyChildren resolvedResult b
  | Rejects => childrenError "Error in async reactive children:" b
  | Throws => childrenError "Error in reactive children function:" b
  end.

End Renderer.

(** * The key hash of the renderer ([_hashProps]) *)

(** [ToInt32]: the signed 32-bit integer congruent to [z]. *)
Definition toInt32 (z : Z) : Z := ((z + 2 ^ 31) mod 2 ^ 32 - 2 ^ 31)%Z.

(** One turn of the loop: [hash = ((hash << 5) - hash) + char; hash = hash &
    hash].  The shift wraps to 32 bits, the subtraction and the addition
    are exact, and [hash & hash] wraps again. *)
Definition hashStep (hash char : Z) : Z :=
  toInt32 (toInt32 (Z.shiftl hash 5) - hash + char)%Z.

(** The loop of [_hashProps] over [str], the code units of the serialised
    props, and [Math.abs] of its result: the number whose rendering in base
    36 is the hash. *)
Definition hashOf (str : list Z) : Z := Z.abs (fold_left hashStep str 0%Z).


Unset Implicit Arguments.

(** * Vocabulary of the properties *)

#[warnings="-register-all"]
Inductive wf_value : value -> Prop :=
| wf_undefined : wf_value VUndefined
| wf_null : wf_value VNull
| wf_bool b : wf_value (VBool b)
| wf_num n : wf_value (VNum n)
| wf_str s : wf_value (VStr s)
| wf_sym n : wf_value (VSym n)
| wf_obj arr fs :
    NoDup (keys fs) ->
    Forall (fun e => wf_value (snd e)) fs ->
    wf_value (VObj arr fs)
| wf_nan : wf_value VNaN.

(** [NaN] occurs in the value. *)
Fixpoint hasNaN (v : value) : bool :=
  match v with
  | VNaN => true
  | VObj _ fs =>
      (fix any (l : list (string * value)) : bool :=
         match l with
         | [] => false
         | (_, x) :: l' => hasNaN x || any l'
         end) fs
  | _ => false
  end.

(** The names the prototypes of the built-in classes define (those of
    [Object], [Array], [String], [Number], [Boolean] and [Symbol]), with
    the [length] of arrays and strings.  On a value that has no such own
    property the program answers the inherited member, which the model
    does not hold. *)
Definition inheritedName (k : string) : bool :=
  existsb (String.eqb k)
    ["__proto__"; "constructor"; "hasOwnProperty"; "isPrototypeOf";
     "propertyIsEnumerable"; "toLocaleString"; "toString"; "valueOf";
     "__defineGetter__"; "__defineSetter__"; "__lookupGetter__"; "__lookupSetter__";
     "length"; "at"; "concat"; "copyWithin"; "entries"; "every"; "fill"; "filter";
     "find"; "findIndex"; "findLast"; "findLastIndex"; "flat"; "flatMap"; "forEach";
     "includes"; "indexOf"; "join"; "keys"; "lastIndexOf"; "map"; "pop"; "push";
     "reduce"; "reduceRight"; "reverse"; "shift"; "slice"; "some"; "sort"; "splice";
     "toReversed"; "toSorted"; "toSpliced"; "unshift"; "values"; "with";
     "anchor"; "big"; "blink"; "bold"; "charAt"; "charCodeAt"; "codePointAt";
     "endsWith"; "fixed"; "fontcolor"; "fontsize"; "isWellFormed"; "italics"; "link";
     "localeCompare"; "match"; "matchAll"; "normalize"; "padEnd"; "padStart";
     "repeat"; "replace"; "replaceAll"; "search"; "small"; "split"; "startsWith";
     "strike"; "sub"; "substr"; "substring"; "sup"; "toLocaleLowerCase";
     "toLocaleUpperCase"; "toLowerCase"; "toUpperCase"; "toWellFormed"; "trim";
     "trimEnd"; "trimLeft"; "trimRight"; "trimStart";
     "toExponential"; "toFixed"; "toPrecision"; "description"].

(** A name that no value answers unless it is an own property: not one a
    prototype defines, not an index into a string. *)
Definition plainName (k : string) : bool :=
  negb (inheritedName k) && match indexOf k with Some _ => false | None => true end.

(** The two names an assignment treats specially: [__proto__] sets the
    prototype instead of creating a property, and the [length] of an array
    resizes it. *)
Definition reservedName (k : string) : bool :=
  String.eqb k "__proto__" || String.eqb k "length".

Fixpoint value_size (v : value) : nat :=
  match v with
  | VObj _ fs => S (fold_right (fun e acc => value_size (snd e) + acc) 0 fs)
  | _ => 1
  end.

(** [keysA.every(key => keysB.includes(key) && deepEquals(a[key], b[key]))] *)
Definition everyKey (fa fb : list (string * value)) : bool :=
  forallb (fun e => match lookup (fst e) fb with
                    | Some vb => deepEquals (snd e) vb
                    | None => false
                    end) fa.

(** The raw content of the tree at a path: [None] when a segment is not
    there, [Some VUndefined] for a property that holds [undefined]. *)
Fixpoint tree_at (parts : list string) (current : value) : option value :=
  match parts with
  | [] => Some current
  | part :: rest =>
      match current with
      | VObj _ fs =>
          match lookup part fs with
          | Some next => tree_at rest next
          | None => None
          end
      | _ => None
      end
  end.

(** The value [getState(path)] answers. *)
Definition valueAt (path : string) (s : StateManager) : value :=
  get_path (getPathParts path) (VObj false (state s)) VNull.


(** A callback that never writes the tree. *)
Inductive pure : prog -> Prop :=
| pure_return v : pure (Return v)
| pure_throw message : pure (Throw message)
| pure_get path d track k : (forall v, pure (k v)) -> pure (DoGet path d track k).

(** A callback that never writes the tree and never throws. *)
Inductive quiet : prog -> Prop :=
| quiet_return v : quiet (Return v)
| quiet_get path d track k : (forall v, quiet (k v)) -> quiet (DoGet path d track k).

(** A middleware body that transforms nothing: it only reads, and returns
    [undefined] or throws. *)
Inductive inert : prog -> Prop :=
| inert_return : inert (Return VUndefined)
| inert_throw message : inert (Throw message)
| inert_get path d track k : (forall v, inert (k v)) -> inert (DoGet path d track k).

Definition allQuiet (subs : list (string * list callback)) : Prop :=
  forall q l c, In (q, l) subs -> In c l -> quiet (cb_body c).

Definition allPure (subs : list (string * list subscription)) : Prop :=
  forall q l sub, In (q, l) subs -> In sub l ->
                  forall a b p, pure (sub_callback sub a b p).

Definition allInert (mws : list middlewareFn) : Prop :=
  forall mw, In mw mws -> forall args, inert (mw args).

(** A state manager whose registered callbacks leave the tree alone. *)
Definition calm (s : StateManager) : Prop :=
  allInert (middleware s) /\ allQuiet (subscribers s) /\ allPure (externalSubscribers s).

(** What the notification machinery never touches. *)
Definition keeps (s s' : StateManager) : Prop :=
  state s' = state s /\
  middleware s' = middleware s /\
  externalSubscribers s' = externalSubscribers s /\
  isUpdating s' = isUpdating s /\
  currentlyUpdating s' = currentlyUpdating s /\
  isBatching s' = isBatching s /\
  batchQueue s' = batchQueue s /\
  batchedPaths s' = batchedPaths s.

(** Only the tracking set differs. *)
Definition reads (s s' : StateManager) : Prop :=
  keeps s s' /\ subscribers s' = subscribers s /\
  console s' = console s /\ calls s' = calls s.

(** What a trigger of internal subscribers may change: the registry (a
    callback joins the paths it read) and the ghost record of calls. *)
Definition triggers (s s' : StateManager) : Prop :=
  keeps s s' /\ (allQuiet (subscribers s) -> allQuiet (subscribers s')).

(** The configuration a write never changes. *)
Definition sameConfig (s s' : StateManager) : Prop :=
  middleware s' = middleware s /\
  externalSubscribers s' = externalSubscribers s /\
  isBatching s' = isBatching s /\
  batchQueue s' = batchQueue s /\
  batchedPaths s' = batchedPaths s.

(** What a [setState] reached while [isUpdating] is set leaves alone:
    nobody is notified and the registries stay as they are. *)
Definition nested (s s' : StateManager) : Prop :=
  isUpdating s' = isUpdating s /\
  calls s' = calls s /\
  subscribers s' = subscribers s /\
  externalSubscribers s' = externalSubscribers s /\
  middleware s' = middleware s /\
  isBatching s' = isBatching s /\
  currentlyUpdating s' = currentlyUpdating s.

Definition silently (A : Type) (s : StateManager) (r : result A) : Prop :=
  match r with
  | Ok _ s' => nested s s'
  | Exn _ s' => nested s s'
  | OutOfFuel => True
  end.

Arguments silently {A} s r.



(** A list of events all raised by internal subscribers registered under
    paths that satisfy [P]. *)
Definition internalOnly (P : string -> Prop) (evs : list call) : Prop :=
  Forall (fun e => exists q id, e = InternalCall q id /\ P q) evs.

(** The registry keys a change of [path] reaches among internal
    subscribers: the path, its ancestors, the registered paths below it. *)
Definition internalTarget (path q : string) : Prop :=
  q = path \/
  In q (ancestorPaths (getPathParts path)) \/
  (startsWith q (descendantPrefix path) = true /\ q <> path).

(** The external subscribers a change of [changedPath] reaches, in the
    order of the registry, with the arguments they receive. *)
Definition externalEvents (changedPath : string) (newValue oldValue : value)
           (ext : list (string * list subscription)) : list call :=
  flat_map
    (fun entry =>
       map (fun sub => ExternalCall (fst entry) (sub_id sub) newValue oldValue changedPath)
           (filter (fun sub => shouldNotify sub changedPath (fst entry)) (snd entry)))
    ext.


(** The internal callback [id] is registered under [q]. *)
Definition registered (q : string) (id : nat) (s : StateManager) : Prop :=
  In id (map cb_id (orEmpty (lookup q (subscribers s)))).

(** No internal subscriber is lost. *)
Definition grows (s s' : StateManager) : Prop :=
  forall q id, registered q id s -> registered q id s'.

(** What [_setStateImmediate(path, v)] leaves behind, by the three ways it
    can end: value unchanged; written inside a running wave; written and
    notified. *)
Definition writeOutcome (path : string) (v : value) (s s' : StateManager) : Prop :=
  (deepEquals (valueAt path s) v = true ->
   state s' = state s /\ calls s' = calls s /\
   isUpdating s' = isUpdating s /\ currentlyUpdating s' = currentlyUpdating s) /\
  (deepEquals (valueAt path s) v = false ->
   state s' = set_path (getPathParts path) v (state s) /\
   (isUpdating s = true ->
    calls s' = calls s /\ isUpdating s' = true /\
    currentlyUpdating s' = currentlyUpdating s) /\
   (isUpdating s = false ->
    isUpdating s' = false /\
    currentlyUpdating s' = set_delete path (set_add path (currentlyUpdating s)) /\
    exists evs,
      (internalOnly (internalTarget path) evs /\
       forall q id,
         In q (ancestorPaths (getPathParts path)) \/
         (startsWith q (descendantPrefix path) = true /\ q <> path) ->
         registered q id s -> In (InternalCall q id) evs) /\
      calls s' = calls s
                 ++ map (fun c => InternalCall path (cb_id c))
                        (orEmpty (lookup path (subscribers s)))
                 ++ evs
                 ++ externalEvents path v (valueAt path s) (externalSubscribers s))).

(** ** Vocabulary of the further properties *)

(** A string without a dot. *)
Fixpoint dotFree (s : string) : bool :=
  match s with
  | EmptyString => true
  | String c s' => negb (Ascii.eqb c ".") && dotFree s'
  end.

(** What a path segment is: not empty, without a dot. *)
Definition segment (s : string) : bool := nonEmpty s && dotFree s.

(** [s.endsWith('.')] *)
Fixpoint endsWithDot (s : string) : bool :=
  match s with
  | EmptyString => false
  | String c EmptyString => Ascii.eqb c "."
  | String _ s' => endsWithDot s'
  end.


(** A series of reads: [getState(path, undefined, track)] for each entry. *)
Definition readAll (rs : list (string * bool)) (s : StateManager) : StateManager :=
  fold_left (fun s' r => snd (getState (fst r) VUndefined (snd r) s')) rs s.

(** The properties of the clone of a record or array. *)
Definition cloneFields (arr : bool) (fs : list (string * value)) : list (string * value) :=
  flat_map (fun e => match jsonClone (snd e) with
                     | Some y => [(fst e, y)]
                     | None => if arr then [(fst e, VNull)] else []
                     end) fs.

(** Nothing can be read at [parts]: every read answers its default. *)
Definition gone (parts : list string) (fields : list (string * value)) : Prop :=
  forall (arr : bool) (d : value), get_path parts (VObj arr fields) d = d.

(** A callback that issues the writes [ws] in order and ends with [k]. *)
Fixpoint script (ws : list (string * value)) (k : prog) : prog :=
  match ws with
  | [] => k
  | w :: ws' => DoSet (fst w) (snd w) (script ws' k)
  end.

(** The writes [ws] issued one after the other from outside. *)
Definition setStates (fuel : nat) (ws : list (string * value)) : M unit :=
  forEach ws (fun w => setState fuel (fst w) (snd w) emptyRecord).



(** What a [setState] issued while a batch is open leaves alone:
    everything but the queue, the console and the tracking set. *)
Definition queues (s s' : StateManager) : Prop :=
  state s' = state s /\
  middleware s' = middleware s /\
  subscribers s' = subscribers s /\
  externalSubscribers s' = externalSubscribers s /\
  isUpdating s' = isUpdating s /\
  currentlyUpdating s' = currentlyUpdating s /\
  isBatching s' = isBatching s /\
  calls s' = calls s.



(** The queue holds at most one update per path, all for valid paths. *)
Definition tidyQueue (s : StateManager) : Prop :=
  NoDup (map u_path (batchQueue s)) /\
  Forall (fun u => isValidPath (u_path u) = true) (batchQueue s).


(** A promise made by [Promise.resolve] inside [promisify]. *)
Definition isWrapper (p : AsyncResolver.promise) : Prop :=
  exists n v, p = AsyncResolver.Fresh n v.

(** Every promise the resolver holds was allocated before now. *)
Definition allocatedBefore (r : AsyncResolver.resolver) : Prop :=
  forall n v,
    In (AsyncResolver.Fresh n v)
       (AsyncResolver.activePromises r ++ AsyncResolver.reactions r) ->
    n < AsyncResolver.allocated r.

(** The polynomial [s0 * 31^(n-1) + ... + s(n-1)] over the integers. *)
Definition poly31 (str : list Z) : Z := fold_left (fun acc c => (31 * acc + c)%Z) str 0%Z.

(** * Sample inputs *)

(** An external subscriber that does nothing. *)
Definition observer (id : nat) (hier : bool) : subscription :=
  {| sub_id := id; sub_callback := fun _ _ _ => Return VUndefined; hierarchical := hier |}.

(** An empty tree with one subscriber of ["x"]. *)
Definition watched : StateManager :=
  subscribe "x" (observer 1 true) (newStateManager [] []).


(** A tree whose ["a"] is a number. *)
Definition scalarA : StateManager := newStateManager [("a", VNum 5)] [].







(** A middleware that replaces every value written to ["b"] by [3]. *)
Definition rewriteB : middlewareFn :=
  fun args => if String.eqb (mw_path args) "b" then Return (VNum 3) else Return VUndefined.

(** A subscriber of ["a"] that writes [2] to ["b"]. *)
Definition relay : subscription :=
  {| sub_id := 1;
     sub_callback := fun _ _ _ => DoSet "b" (VNum 2) (Return VUndefined);
     hierarchical := true |}.

(** The relay on ["a"], a subscriber of ["b"], and the rewriting
    middleware. *)
Definition relaying : StateManager :=
  subscribe "b" (observer 2 true)
            (subscribe "a" relay (newStateManager [] [rewriteB])).

(** A subscriber of ["x"] that writes ["x"] again. *)
Definition echo : subscription :=
  {| sub_id := 1;
     sub_callback := fun _ _ _ => DoSet "x" (VNum 5) (Return VUndefined);
     hierarchical := true |}.

(** A middleware that writes [v'] back to the path it is transforming. *)
Definition reentrant (v' : value) : middlewareFn :=
  fun args => DoSet (mw_path args) v' (Return VUndefined).

(** An internal subscriber that throws. *)
Definition thrower : callback := {| cb_id := 7; cb_body := Throw "boom" |}.

(** An internal subscriber that does nothing. *)
Definition bystander : callback := {| cb_id := 8; cb_body := Return VUndefined |}.

(** The thrower, then the bystander, then an external subscriber, all of
    ["a"]. *)
Definition fragile : StateManager :=
  subscribe "a" (observer 1 true)
            (subscribeInternal "a" bystander
                               (subscribeInternal "a" thrower (newStateManager [] []))).

(** A text binding that last showed ["hello"]. *)
Definition greeting : Renderer.textBinding :=
  Renderer.updateText (Renderer.Returns (VStr "hello")) (Renderer.newTextBinding (VStr "")).

(** ** Further sample inputs *)

(** A tree with the profile of one user. *)
Definition profile : StateManager :=
  newStateManager
    [("user", VObj false [("name", VStr "Ann"); ("age", VNum 30)])] [].


(** The relaying manager with a batch just opened. *)
Definition relayingInBatch : StateManager := beginBatch relaying.

(** A callback that queues two writes and then throws. *)
Definition halfway : prog :=
  script [("user.name", VStr "Bob"); ("user.age", VNum 31)] (Throw "stop").

(** A tree with the local state of two components. *)
Definition twoCounters : StateManager :=
  newStateManager
    [("__local", VObj false [("Counter_1", VObj false [("count", VNum 3)]);
                             ("Counter_2", VObj false [("count", VNum 5)])])] [].

(** * Properties *)

(** ** Records *)

Lemma lookup_assign_same (A : Type) (k : string) (v : A) (l : list (string * A)) :
  lookup k (assign k v l) = Some v.
Proof.
  induction l as [|[k' v'] l IH]; simpl.
  - now rewrite String.eqb_refl.
  - destruct (String.eqb k k') eqn:E; simpl; rewrite E; auto.
Qed.

Lemma lookup_assign_other (A : Type) (k k' : string) (v : A) (l : list (string * A)) :
  k <> k' -> lookup k (assign k' v l) = lookup k l.
Proof.
  intros Hne. induction l as [|[k0 v0] l IH]; simpl.
  - destruct (String.eqb k k') eqn:E; auto.
    apply String.eqb_eq in E. contradiction.
  - destruct (String.eqb k' k0) eqn:E; simpl.
    + apply String.eqb_eq in E. subst k0.
      destruct (String.eqb k k') eqn:E'; auto.
      apply String.eqb_eq in E'. contradiction.
    + now rewrite IH.
Qed.

Lemma lookup_In (A : Type) (k : string) (v : A) (l : list (string * A)) :
  lookup k l = Some v -> In (k, v) l.
Proof.
  induction l as [|[k' v'] l IH]; simpl; [discriminate|].
  destruct (String.eqb k k') eqn:E.
  - intros [= ->]. apply String.eqb_eq in E. subst. now left.
  - intros H. right. auto.
Qed.

Lemma In_assign (A : Type) (k : string) (v : A) (l : list (string * A)) (e : string * A) :
  In e (assign k v l) -> e = (k, v) \/ In e l.
Proof.
  induction l as [|[k' v'] l IH]; simpl.
  - intros [<-|[]]. now left.
  - destruct (String.eqb k k') eqn:E; simpl.
    + apply String.eqb_eq in E. subst k'. intros [<-|H]; auto.
    + intros [<-|H]; auto; destruct (IH H); auto.
Qed.

Lemma set_has_delete (x : string) (l : list string) :
  set_has x (set_delete x l) = false.
Proof.
  unfold set_has, set_delete. induction l as [|y l IH]; simpl; auto.
  destruct (String.eqb x y) eqn:E; simpl; auto. now rewrite E.
Qed.

Lemma set_add_In (x y : string) (l : list string) :
  In y (set_add x l) <-> y = x \/ In y l.
Proof.
  unfold set_add. destruct (existsb (String.eqb x) l) eqn:E.
  - split; auto. intros [->|H]; auto.
    apply existsb_exists in E. destruct E as [z [Hz Ez]].
    apply String.eqb_eq in Ez. now subst.
  - rewrite in_app_iff. simpl. split.
    + intros [H|[<-|[]]]; auto.
    + intros [->|H]; auto.
Qed.

(** ** Well-formed values: the keys of a record are distinct *)

Lemma lookup_NoDup_In (A : Type) (k : string) (v : A) (l : list (string * A)) :
  NoDup (keys l) -> In (k, v) l -> lookup k l = Some v.
Proof.
  induction l as [|[k' v'] l IH]; simpl; [tauto|].
  intros Hnd [H|H].
  - injection H as -> ->. now rewrite String.eqb_refl.
  - inversion Hnd as [|? ? Hnotin Hnd']; subst.
    destruct (String.eqb k k') eqn:E.
    + apply String.eqb_eq in E. subst k'. exfalso. apply Hnotin.
      apply (in_map fst) in H. exact H.
    + auto.
Qed.

Lemma deepEquals_obj (arrA arrB : bool) (fa fb : list (string * value)) :
  deepEquals (VObj arrA fa) (VObj arrB fb) =
  Bool.eqb arrA arrB && Nat.eqb (List.length fa) (List.length fb) && everyKey fa fb.
Proof.
  simpl. f_equal. unfold everyKey.
  induction fa as [|[k x] fa IH]; simpl; auto. now rewrite IH.
Qed.

Lemma hasNaN_obj (arr : bool) (fs : list (string * value)) :
  hasNaN (VObj arr fs) = existsb (fun e => hasNaN (snd e)) fs.
Proof.
  simpl. induction fs as [|[k x] fs IH]; simpl; [reflexivity|]. now rewrite IH.
Qed.

(** A record handed twice to [deepEquals] (the same object, or two with the
    same contents) compares equal, unless it holds [NaN]. *)
Lemma deepEquals_refl (v : value) :
  wf_value v -> hasNaN v = false -> deepEquals v v = true.
Proof.
  remember (value_size v) as n eqn:Hn.
  revert v Hn. induction n as [n IH] using lt_wf_ind. intros v Hn Hwf Hnan.
  destruct v as [| |b|z|s|id|arr fs|].
  - reflexivity.
  - reflexivity.
  - apply Bool.eqb_reflx.
  - apply Z.eqb_refl.
  - apply String.eqb_refl.
  - apply Nat.eqb_refl.
  - rewrite deepEquals_obj, Bool.eqb_reflx, Nat.eqb_refl. simpl.
    inversion Hwf as [| | | | | |? ? Hnd Hall|]; subst.
    rewrite hasNaN_obj in Hnan.
    unfold everyKey. apply forallb_forall. intros [k x] Hin. simpl.
    rewrite (lookup_NoDup_In _ _ _ _ Hnd Hin).
    assert (Hlt : value_size x < value_size (VObj arr fs)).
    { simpl. clear - Hin. induction fs as [|e fs IHfs]; [destruct Hin|].
      simpl. destruct Hin as [->|Hin]; simpl; [lia|].
      specialize (IHfs Hin). lia. }
    assert (Hx : wf_value x).
    { rewrite Forall_forall in Hall. apply (Hall (k, x) Hin). }
    assert (Hxn : hasNaN x = false).
    { destruct (hasNaN x) eqn:E; [|reflexivity].
      assert (Hex : existsb (fun e => hasNaN (snd e)) fs = true).
      { apply existsb_exists. exists (k, x). split; [exact Hin|exact E]. }
      rewrite Hex in Hnan. discriminate. }
    exact (IH _ Hlt x eq_refl Hx Hxn).
  - discriminate.
Qed.

(** ** Reading back what was written *)

Lemma get_prop_assign (arr : bool) (k : string) (v : value) (fs : list (string * value)) :
  get_prop (VObj arr (assign k v fs)) k = v.
Proof. simpl. now rewrite lookup_assign_same. Qed.

Lemma set_path_cons2 (p q : string) (rest : list string) (v : value)
      (fs : list (string * value)) :
  set_path (p :: q :: rest) v fs =
  assign p (VObj (fst (descend fs p)) (set_path (q :: rest) v (snd (descend fs p)))) fs.
Proof. simpl. destruct (descend fs p). reflexivity. Qed.

Lemma get_path_set_path (parts : list string) (v d : value) (arr : bool)
      (fs : list (string * value)) :
  parts <> [] ->
  get_path parts (VObj arr (set_path parts v fs)) d = orDefault d v.
Proof.
  intros Hne. revert arr fs. induction parts as [|p rest IH]; [congruence|].
  intros arr fs. destruct rest as [|q rest].
  - simpl set_path. cbn [get_path]. rewrite get_prop_assign.
    destruct v; reflexivity.
  - rewrite set_path_cons2. cbn [get_path]. rewrite get_prop_assign.
    apply (IH ltac:(discriminate) (fst (descend fs p)) (snd (descend fs p))).
Qed.


(** ** Callbacks that only read *)

Lemma keeps_refl s : keeps s s.
Proof. repeat split. Qed.

Lemma keeps_trans s1 s2 s3 : keeps s1 s2 -> keeps s2 s3 -> keeps s1 s3.
Proof. unfold keeps. intuition congruence. Qed.

Lemma reads_refl s : reads s s.
Proof. repeat split. Qed.

Lemma reads_trans s1 s2 s3 : reads s1 s2 -> reads s2 s3 -> reads s1 s3.
Proof. unfold reads, keeps. intuition congruence. Qed.

Lemma reads_keeps s s' : reads s s' -> keeps s s'.
Proof. now intros [H _]. Qed.

Lemma keeps_log lv m s : keeps s (log lv m s).
Proof. repeat split. Qed.

Lemma keeps_record c s : keeps s (record c s).
Proof. repeat split. Qed.

Lemma keeps_tracking t s : keeps s (with_currentTracking t s).
Proof. repeat split. Qed.

Lemma keeps_subscribers x s : keeps s (with_subscribers x s).
Proof. repeat split. Qed.

Lemma reads_tracking t s : reads s (with_currentTracking t s).
Proof. repeat split. Qed.

Lemma reads_trackPath path s : reads s (trackPath path s).
Proof. unfold trackPath. destruct (currentTracking s); repeat split. Qed.

Lemma reads_getState path d track s : reads s (snd (getState path d track s)).
Proof.
  unfold getState. destruct (negb (isValidPath path)); simpl.
  - apply reads_refl.
  - destruct track; [apply reads_trackPath | apply reads_refl].
Qed.


Section ReadOnly.

Variable rec : string -> value -> value -> M unit.

Lemma run_pure (p : prog) :
  pure p -> forall s, exists s',
      reads s s' /\
      ((exists v, run_prog rec p s = Ok v s') \/ (exists e, run_prog rec p s = Exn e s')).
Proof.
  induction 1 as [v|m|path d track k Hk IH]; intros s.
  - exists s. split; [apply reads_refl|]. left. now exists v.
  - exists s. split; [apply reads_refl|]. right. now exists (JsError m).
  - simpl. destruct (getState path d track s) as [v s1] eqn:E.
    destruct (IH v s1) as [s' [Hr Hres]]. exists s'. split; auto.
    eapply reads_trans; [|exact Hr].
    pose proof (reads_getState path d track s) as H0. now rewrite E in H0.
Qed.

Lemma run_quiet (p : prog) :
  quiet p -> forall s, exists v s', run_prog rec p s = Ok v s' /\ reads s s'.
Proof.
  induction 1 as [v|path d track k Hk IH]; intros s.
  - exists v, s. split; [reflexivity | apply reads_refl].
  - simpl. destruct (getState path d track s) as [v s1] eqn:E.
    destruct (IH v s1) as [v' [s' [Hrun Hr]]]. exists v', s'. split; auto.
    eapply reads_trans; [|exact Hr].
    pose proof (reads_getState path d track s) as H0. now rewrite E in H0.
Qed.

Lemma run_inert (p : prog) :
  inert p -> forall s, exists s',
      reads s s' /\
      (run_prog rec p s = Ok VUndefined s' \/ exists e, run_prog rec p s = Exn e s').
Proof.
  induction 1 as [|m|path d track k Hk IH]; intros s.
  - exists s. split; [apply reads_refl|]. now left.
  - exists s. split; [apply reads_refl|]. right. now exists (JsError m).
  - simpl. destruct (getState path d track s) as [v s1] eqn:E.
    destruct (IH v s1) as [s' [Hr Hres]]. exists s'. split; auto.
    eapply reads_trans; [|exact Hr].
    pose proof (reads_getState path d track s) as H0. now rewrite E in H0.
Qed.

(** A chain of inert middleware hands the value through unchanged. *)
Lemma runMiddleware_inert (mws : list middlewareFn) (msg path : string)
      (old v ctx : value) :
  allInert mws -> forall s, exists s',
      runMiddleware rec mws msg path old v ctx s = Ok v s' /\
      keeps s s' /\ subscribers s' = subscribers s /\ calls s' = calls s.
Proof.
  induction mws as [|mw rest IH]; intros Hall s.
  - exists s. repeat split.
  - simpl.
    assert (Hmw : forall args, inert (mw args)) by (apply Hall; now left).
    assert (Hrest : allInert rest) by (intros m Hm; apply Hall; now right).
    destruct (run_inert _ (Hmw {| mw_path := path; mw_oldValue := old;
                                 mw_newValue := v; mw_context := ctx;
                                 mw_state := VObj false (state s) |}) s)
      as [s1 [[Hk [Hs [Hc Hcl]]] [Hrun | [e Hrun]]]]; rewrite Hrun.
    + simpl. destruct (IH Hrest s1) as [s' [Hr [Hk' [Hs' Hcl']]]].
      exists s'. split; [exact Hr|]. split; [|split].
      * eapply keeps_trans; [exact Hk | exact Hk'].
      * rewrite Hs'. exact Hs.
      * rewrite Hcl'. exact Hcl.
    + destruct (IH Hrest (log LError msg s1)) as [s' [Hr [Hk' [Hs' Hcl']]]].
      exists s'. split; [exact Hr|]. split; [|split].
      * eapply keeps_trans; [exact Hk|].
        eapply keeps_trans; [apply keeps_log | exact Hk'].
      * rewrite Hs'. exact Hs.
      * rewrite Hcl'. exact Hcl.
Qed.

End ReadOnly.

(** ** One notification wave over calm subscribers *)

Lemma cb_add_In (c c' : callback) (l : list callback) :
  In c' (cb_add c l) -> c' = c \/ In c' l.
Proof.
  unfold cb_add. destruct (cb_in c l); [auto|].
  rewrite in_app_iff. simpl. intuition.
Qed.

Lemma subscribeInternal_allQuiet (path : string) (c : callback) (s : StateManager) :
  quiet (cb_body c) -> allQuiet (subscribers s) ->
  allQuiet (subscribers (subscribeInternal path c s)).
Proof.
  intros Hc Hall q l c' Hin Hc'. simpl in Hin.
  apply In_assign in Hin. destruct Hin as [E|Hin].
  - injection E as -> ->. apply cb_add_In in Hc'. destruct Hc' as [->|Hc']; auto.
    destruct (lookup path (subscribers s)) eqn:El; simpl in Hc'; [|destruct Hc'].
    apply lookup_In in El. eapply Hall; eauto.
  - eapply Hall; eauto.
Qed.

Lemma triggers_refl s : triggers s s.
Proof. split; [apply keeps_refl | auto]. Qed.

Lemma triggers_trans s1 s2 s3 : triggers s1 s2 -> triggers s2 s3 -> triggers s1 s3.
Proof.
  intros [K1 Q1] [K2 Q2]. split; [eapply keeps_trans; eauto | auto].
Qed.

Lemma resubscribe_spec (c : callback) (s : StateManager) (newPath : string) :
  quiet (cb_body c) ->
  triggers s (resubscribe c s newPath) /\
  calls (resubscribe c s newPath) = calls s /\
  console (resubscribe c s newPath) = console s.
Proof.
  intros Hc. unfold resubscribe.
  destruct (lookup newPath (subscribers s)) as [existing|] eqn:E.
  - destruct (cb_in c existing).
    + split; [apply triggers_refl | split; reflexivity].
    + split; [|split; reflexivity].
      split; [apply keeps_subscribers|].
      now apply subscribeInternal_allQuiet.
  - split; [|split; reflexivity].
    split; [apply keeps_subscribers|].
    now apply subscribeInternal_allQuiet.
Qed.

Lemma resubscribe_fold (c : callback) (paths : list string) (s : StateManager) :
  quiet (cb_body c) ->
  triggers s (fold_left (resubscribe c) paths s) /\
  calls (fold_left (resubscribe c) paths s) = calls s /\
  console (fold_left (resubscribe c) paths s) = console s.
Proof.
  intros Hc. revert s. induction paths as [|p paths IH]; intros s; simpl.
  - split; [apply triggers_refl | split; reflexivity].
  - destruct (resubscribe_spec c s p Hc) as [T [C L]].
    destruct (IH (resubscribe c s p)) as [T' [C' L']].
    split; [eapply triggers_trans; eauto | split; congruence].
Qed.

Lemma internalOnly_app P l1 l2 :
  internalOnly P l1 -> internalOnly P l2 -> internalOnly P (l1 ++ l2).
Proof. unfold internalOnly. intros. apply Forall_app. auto. Qed.

Lemma internalOnly_weaken (P Q : string -> Prop) l :
  (forall q, P q -> Q q) -> internalOnly P l -> internalOnly Q l.
Proof.
  intros HPQ H. unfold internalOnly in *. eapply Forall_impl; [|exact H].
  intros e [q [id [-> Hq]]]. eauto.
Qed.

Lemma set_of_In (x : string) (l : list string) : In x l -> In x (set_of l).
Proof.
  unfold set_of.
  assert (G : forall acc, In x l \/ In x acc ->
                          In x (fold_left (fun acc' y => set_add y acc') l acc)).
  { induction l as [|y l IH]; intros acc [Hl|Ha]; simpl.
    - destruct Hl.
    - exact Ha.
    - apply IH. destruct Hl as [->|Hl]; [right; apply set_add_In; now left | now left].
    - apply IH. right. apply set_add_In. now right. }
  intros H. apply G. now left.
Qed.

Lemma registered_key (q : string) (id : nat) (s : StateManager) :
  registered q id s -> In q (keys (subscribers s)).
Proof.
  unfold registered, keys. destruct (lookup q (subscribers s)) as [l|] eqn:E.
  - intros _. apply lookup_In in E. apply in_map_iff. exists (q, l). now split.
  - intros [].
Qed.

Lemma grows_refl s : grows s s.
Proof. intros q id H. exact H. Qed.

Lemma grows_trans s1 s2 s3 : grows s1 s2 -> grows s2 s3 -> grows s1 s3.
Proof. intros H1 H2 q id H. exact (H2 q id (H1 q id H)). Qed.

Lemma grows_same s s' : subscribers s' = subscribers s -> grows s s'.
Proof. intros E q id H. unfold registered in *. now rewrite E. Qed.

Lemma subscribeInternal_grows (path : string) (c : callback) (s : StateManager) :
  grows s (subscribeInternal path c s).
Proof.
  intros q id H. unfold registered, subscribeInternal in *. simpl.
  destruct (String.eqb q path) eqn:E.
  - apply String.eqb_eq in E. subst q. rewrite lookup_assign_same. simpl.
    unfold cb_add. destruct (cb_in c (orEmpty (lookup path (subscribers s)))); [exact H|].
    rewrite map_app. apply in_or_app. now left.
  - apply String.eqb_neq in E. now rewrite lookup_assign_other.
Qed.

Lemma resubscribe_grows (c : callback) (s : StateManager) (newPath : string) :
  grows s (resubscribe c s newPath).
Proof.
  unfold resubscribe. destruct (lookup newPath (subscribers s)) as [existing|].
  - destruct (cb_in c existing); [apply grows_refl | apply subscribeInternal_grows].
  - apply subscribeInternal_grows.
Qed.

Lemma resubscribe_fold_grows (c : callback) (paths : list string) (s : StateManager) :
  grows s (fold_left (resubscribe c) paths s).
Proof.
  revert s. induction paths as [|p paths IH]; intros s; simpl; [apply grows_refl|].
  eapply grows_trans; [apply resubscribe_grows | apply IH].
Qed.

Section Waves.

Variable rec : string -> value -> value -> M unit.

Lemma triggerCallback_grows (path : string) (c : callback) (s s' : StateManager) :
  quiet (cb_body c) -> triggerCallback rec path c s = Ok tt s' -> grows s s'.
Proof.
  intros Hc. unfold triggerCallback.
  destruct (run_quiet rec _ Hc
              (record (InternalCall path (cb_id c)) (with_currentTracking (Some []) s)))
    as [v [s2 [Hrun [_ [Hs _]]]]].
  rewrite Hrun. intros [= <-].
  eapply grows_trans; [|apply resubscribe_fold_grows].
  apply grows_same. simpl. exact Hs.
Qed.

Lemma triggerCallback_quiet (path : string) (c : callback) (s : StateManager) :
  quiet (cb_body c) ->
  exists s', triggerCallback rec path c s = Ok tt s' /\
             triggers s s' /\ console s' = console s /\
             calls s' = calls s ++ [InternalCall path (cb_id c)].
Proof.
  intros Hc. unfold triggerCallback.
  destruct (run_quiet rec _ Hc
              (record (InternalCall path (cb_id c)) (with_currentTracking (Some []) s)))
    as [v [s2 [Hrun [Hk [Hs [Hcon Hcl]]]]]].
  rewrite Hrun.
  destruct (resubscribe_fold c (orEmpty (currentTracking s2))
                             (with_currentTracking (currentTracking s) s2) Hc)
    as [[K Q] [C L]].
  eexists. split; [reflexivity|]. split; [|split].
  - split.
    + eapply keeps_trans; [|exact K].
      eapply keeps_trans; [|apply keeps_tracking].
      eapply keeps_trans; [|exact Hk].
      eapply keeps_trans; [apply keeps_tracking | apply keeps_record].
    + intros HQ. apply Q. simpl. rewrite Hs. exact HQ.
  - rewrite L. simpl. rewrite Hcon. reflexivity.
  - rewrite C. simpl. rewrite Hcl. reflexivity.
Qed.

Lemma forEach_triggerCallback (path : string) (l : list callback) :
  (forall c, In c l -> quiet (cb_body c)) ->
  forall s, exists s',
    forEach l (triggerCallback rec path) s = Ok tt s' /\
    triggers s s' /\ console s' = console s /\
    calls s' = calls s ++ map (fun c => InternalCall path (cb_id c)) l.
Proof.
  induction l as [|c l IH]; intros Hq s.
  - exists s. simpl. split; [reflexivity|]. split; [apply triggers_refl|].
    split; [reflexivity|]. now rewrite app_nil_r.
  - simpl. unfold bind.
    destruct (triggerCallback_quiet path c s (Hq c (or_introl eq_refl)))
      as [s1 [Hrun [T [L C]]]].
    rewrite Hrun.
    destruct (IH (fun c' Hc' => Hq c' (or_intror Hc')) s1) as [s' [Hrun' [T' [L' C']]]].
    exists s'. split; [exact Hrun'|]. split; [eapply triggers_trans; eauto|].
    split; [congruence|]. rewrite C', C, <- app_assoc. reflexivity.
Qed.

Lemma forEach_triggerCallback_grows (path : string) (l : list callback) :
  (forall c, In c l -> quiet (cb_body c)) ->
  forall s s', forEach l (triggerCallback rec path) s = Ok tt s' -> grows s s'.
Proof.
  induction l as [|c l IH]; intros Hq s s'.
  - intros [= <-]. apply grows_refl.
  - simpl. unfold bind.
    destruct (triggerCallback_quiet path c s (Hq c (or_introl eq_refl)))
      as [s1 [Hrun _]].
    rewrite Hrun. intros H.
    eapply grows_trans.
    + exact (triggerCallback_grows path c s s1 (Hq c (or_introl eq_refl)) Hrun).
    + exact (IH (fun c' Hc' => Hq c' (or_intror Hc')) s1 s' H).
Qed.

Lemma triggerPathSubscribers_grows (path : string) (s s' : StateManager) :
  allQuiet (subscribers s) ->
  _triggerPathSubscribers rec path s = Ok tt s' -> grows s s'.
Proof.
  intros HQ. unfold _triggerPathSubscribers.
  destruct (lookup path (subscribers s)) as [[|c subs]|] eqn:E.
  - intros [= <-]. apply grows_refl.
  - intros H.
    assert (Hq : forall c', In c' (c :: subs) -> quiet (cb_body c')).
    { intros c' Hc'. apply lookup_In in E. eapply HQ; eauto. }
    eapply grows_trans;
      [|exact (forEach_triggerCallback_grows path _ Hq _ _ H)].
    apply grows_same. reflexivity.
  - intros [= <-]. apply grows_refl.
Qed.

Lemma triggerPathSubscribers_calm (path : string) (s : StateManager) :
  allQuiet (subscribers s) ->
  exists s' con,
    _triggerPathSubscribers rec path s = Ok tt s' /\
    triggers s s' /\ console s' = console s ++ con /\
    calls s' = calls s ++ map (fun c => InternalCall path (cb_id c))
                              (orEmpty (lookup path (subscribers s))).
Proof.
  intros HQ. unfold _triggerPathSubscribers.
  destruct (lookup path (subscribers s)) as [[|c subs]|] eqn:E.
  - exists s, []. simpl. rewrite !app_nil_r. split; [reflexivity|].
    split; [apply triggers_refl | split; reflexivity].
  - assert (Hq : forall c', In c' (c :: subs) -> quiet (cb_body c')).
    { intros c' Hc'. apply lookup_In in E. eapply HQ; eauto. }
    destruct (forEach_triggerCallback path _ Hq (log LDebug "Triggering subscribers" s))
      as [s' [Hrun [[K Q] [L C]]]].
    exists s', [(LDebug, "Triggering subscribers")]. split; [exact Hrun|].
    split; [|split; [exact L | exact C]].
    split; [eapply keeps_trans; [apply keeps_log | exact K] | exact Q].
  - exists s, []. simpl. rewrite !app_nil_r. split; [reflexivity|].
    split; [apply triggers_refl | split; reflexivity].
Qed.

(** A loop that triggers some of the paths of a list. *)
Lemma forEach_trigger_calm (cond : string -> bool) (l : list string) :
  forall s, allQuiet (subscribers s) ->
  exists s' con evs,
    forEach l (fun q => if cond q then _triggerPathSubscribers rec q else ret tt) s
      = Ok tt s' /\
    triggers s s' /\ console s' = console s ++ con /\
    calls s' = calls s ++ evs /\
    internalOnly (fun q => In q l /\ cond q = true) evs /\
    grows s s' /\
    (forall q id, In q l -> cond q = true -> registered q id s ->
                  In (InternalCall q id) evs).
Proof.
  induction l as [|q l IH]; intros s HQ.
  - exists s, [], []. simpl. rewrite !app_nil_r. split; [reflexivity|].
    split; [apply triggers_refl|]. split; [reflexivity|]. split; [reflexivity|].
    split; [constructor|]. split; [apply grows_refl|]. intros q id [].
  - simpl. unfold bind. destruct (cond q) eqn:Ec.
    + destruct (triggerPathSubscribers_calm q s HQ) as [s1 [con1 [Hrun [T [L C]]]]].
      rewrite Hrun.
      pose proof (triggerPathSubscribers_grows q s s1 HQ Hrun) as G1.
      destruct (IH s1 (proj2 T HQ))
        as [s' [con [evs [Hrun' [T' [L' [C' [I' [G' Hreach]]]]]]]]].
      exists s', (con1 ++ con)%list,
        (map (fun c => InternalCall q (cb_id c)) (orEmpty (lookup q (subscribers s))) ++ evs)%list.
      split; [exact Hrun'|]. split; [eapply triggers_trans; eauto|].
      split; [rewrite L', L, <- app_assoc; reflexivity|].
      split; [rewrite C', C, <- app_assoc; reflexivity|].
      split; [|split].
      * apply internalOnly_app.
        -- apply Forall_forall. intros e He. apply in_map_iff in He.
           destruct He as [c [<- _]]. exists q, (cb_id c). split; [reflexivity|].
           split; [now left | exact Ec].
        -- eapply internalOnly_weaken; [|exact I']. intros q' [H1 H2].
           split; [now right | exact H2].
      * eapply grows_trans; eauto.
      * intros q' id [<-|Hin] Hc Hreg.
        -- apply in_or_app. left. unfold registered in Hreg.
           apply in_map_iff in Hreg. destruct Hreg as [c [<- Hc']].
           apply in_map_iff. exists c. split; [reflexivity|exact Hc'].
        -- apply in_or_app. right. exact (Hreach q' id Hin Hc (G1 q' id Hreg)).
    + unfold ret at 1.
      destruct (IH s HQ) as [s' [con [evs [Hrun' [T' [L' [C' [I' [G' Hreach]]]]]]]]].
      exists s', con, evs. split; [exact Hrun'|]. split; [exact T'|].
      split; [exact L'|]. split; [exact C'|].
      split; [|split; [exact G'|]].
      * eapply internalOnly_weaken; [|exact I']. intros q' [H1 H2].
        split; [now right | exact H2].
      * intros q' id [<-|Hin] Hc Hreg; [congruence|].
        exact (Hreach q' id Hin Hc Hreg).
Qed.

End Waves.

Section Notify.

Variable rec : string -> value -> value -> M unit.

Lemma notifySubscribers_calm (path : string) (nv ov : value) (s : StateManager) :
  allQuiet (subscribers s) ->
  exists s' con evs,
    _notifySubscribers rec path nv ov s = Ok tt s' /\
    triggers s s' /\ console s' = console s ++ con /\
    calls s' = calls s
               ++ map (fun c => InternalCall path (cb_id c))
                      (orEmpty (lookup path (subscribers s)))
               ++ evs /\
    (internalOnly (internalTarget path) evs /\
     forall q id,
       In q (ancestorPaths (getPathParts path)) \/
       (startsWith q (descendantPrefix path) = true /\ q <> path) ->
       registered q id s -> In (InternalCall q id) evs).
Proof.
  intros HQ. unfold _notifySubscribers, bind.
  destruct (triggerPathSubscribers_calm rec path s HQ) as [s1 [con1 [R1 [T1 [L1 C1]]]]].
  rewrite R1.
  pose proof (triggerPathSubscribers_grows rec path s s1 HQ R1) as G1.
  destruct (forEach_trigger_calm rec (fun _ => true)
              (ancestorPaths (getPathParts path)) s1 (proj2 T1 HQ))
    as [s2 [con2 [evs2 [R2 [T2 [L2 [C2 [I2 [G2 Hreach2]]]]]]]]].
  change (forEach (ancestorPaths (getPathParts path)) (_triggerPathSubscribers rec) s1
          = Ok tt s2) in R2.
  rewrite R2.
  destruct (forEach_trigger_calm rec
              (fun q => startsWith q (descendantPrefix path) && negb (String.eqb q path))
              (set_of (keys (subscribers s2) ++ keys (externalSubscribers s2)))
              s2 (proj2 T2 (proj2 T1 HQ)))
    as [s3 [con3 [evs3 [R3 [T3 [L3 [C3 [I3 [_ Hreach3]]]]]]]]].
  exists s3, (con1 ++ con2 ++ con3), (evs2 ++ evs3).
  split; [exact R3|].
  split; [eapply triggers_trans; [exact T1 | eapply triggers_trans; eauto]|].
  split; [rewrite L3, L2, L1, <- !app_assoc; reflexivity|].
  split; [rewrite C3, C2, C1, <- !app_assoc; reflexivity|].
  split.
  - apply internalOnly_app.
    + eapply internalOnly_weaken; [|exact I2]. intros q [Hin _]. right. now left.
    + eapply internalOnly_weaken; [|exact I3]. intros q [_ Hc].
      apply andb_true_iff in Hc. destruct Hc as [Hp Hne]. right. right.
      split; [exact Hp|]. intros ->. rewrite String.eqb_refl in Hne. discriminate.
  - intros q id [Hin | [Hpre Hne]] Hreg; apply in_or_app.
    + left. exact (Hreach2 q id Hin eq_refl (G1 q id Hreg)).
    + right. pose proof (G2 q id (G1 q id Hreg)) as Hreg2.
      apply (Hreach3 q id); [| |exact Hreg2].
      * apply set_of_In, in_or_app. left. exact (registered_key q id s2 Hreg2).
      * rewrite Hpre. apply String.eqb_neq in Hne. now rewrite Hne.
Qed.

(** One external subscriber, under its [try] / [catch]. *)
Lemma externalCall_pure (ev : call) (body : prog) (s : StateManager) :
  pure body ->
  exists s' con,
    tryCatch (modify (record ev) ;;; run_prog rec body ;;; ret tt)
             (fun _ => modify (log LError "External subscriber error:")) s
      = Ok tt s' /\
    keeps s s' /\ subscribers s' = subscribers s /\
    console s' = console s ++ con /\ calls s' = calls s ++ [ev].
Proof.
  intros Hp. unfold tryCatch, bind, modify.
  destruct (run_pure rec body Hp (record ev s))
    as [s1 [[K [S [L C]]] [[v Hrun] | [e Hrun]]]]; rewrite Hrun.
  - exists s1, []. rewrite app_nil_r. split; [reflexivity|].
    split; [eapply keeps_trans; [apply keeps_record | exact K]|].
    split; [exact S | split; [exact L | exact C]].
  - exists (log LError "External subscriber error:" s1),
      [(LError, "External subscriber error:")].
    split; [reflexivity|].
    split; [eapply keeps_trans; [apply keeps_record|];
            eapply keeps_trans; [exact K | apply keeps_log]|].
    split; [exact S|]. split; [simpl; now rewrite L | exact C].
Qed.

Lemma forEach_subscriptions (changedPath subscribedPath : string) (nv ov : value)
      (subs : list subscription) :
  (forall sub, In sub subs -> forall a b p, pure (sub_callback sub a b p)) ->
  forall s, exists s' con,
    forEach subs
      (fun sub =>
         if shouldNotify sub changedPath subscribedPath
         then tryCatch
                (modify (record (ExternalCall subscribedPath (sub_id sub) nv ov changedPath)) ;;;
                 run_prog rec (sub_callback sub nv ov changedPath) ;;; ret tt)
                (fun _ => modify (log LError "External subscriber error:"))
         else ret tt) s = Ok tt s' /\
    keeps s s' /\ subscribers s' = subscribers s /\
    console s' = console s ++ con /\
    calls s' = calls s
               ++ map (fun sub => ExternalCall subscribedPath (sub_id sub) nv ov changedPath)
                      (filter (fun sub => shouldNotify sub changedPath subscribedPath) subs).
Proof.
  induction subs as [|sub subs IH]; intros Hp s.
  - exists s, []. simpl. rewrite !app_nil_r. repeat split.
  - simpl. unfold bind at 1.
    assert (Hrest : forall x, In x subs -> forall a b p, pure (sub_callback x a b p))
      by (intros x Hx; apply Hp; now right).
    destruct (shouldNotify sub changedPath subscribedPath) eqn:E.
    + destruct (externalCall_pure
                  (ExternalCall subscribedPath (sub_id sub) nv ov changedPath)
                  (sub_callback sub nv ov changedPath) s
                  (Hp sub (or_introl eq_refl) nv ov changedPath))
        as [s1 [con1 [R1 [K1 [S1 [L1 C1]]]]]].
      rewrite R1.
      destruct (IH Hrest s1) as [s' [con [R [K [S [L C]]]]]].
      exists s', (con1 ++ con). split; [exact R|].
      split; [eapply keeps_trans; eauto|]. split; [congruence|].
      split; [rewrite L, L1, <- app_assoc; reflexivity|].
      rewrite C, C1, <- app_assoc. reflexivity.
    + unfold ret at 1. apply IH. exact Hrest.
Qed.

Lemma notifyExternalSubscribers_calm (changedPath : string) (nv ov : value)
      (s : StateManager) :
  allPure (externalSubscribers s) ->
  exists s' con,
    _notifyExternalSubscribers rec changedPath nv ov s = Ok tt s' /\
    keeps s s' /\ subscribers s' = subscribers s /\
    console s' = console s ++ con /\
    calls s' = calls s ++ externalEvents changedPath nv ov (externalSubscribers s).
Proof.
  unfold _notifyExternalSubscribers, allPure.
  generalize (externalSubscribers s) as ext. intros ext. revert s.
  induction ext as [|[q subs] ext IH]; intros s Hp.
  - exists s, []. simpl. rewrite !app_nil_r. repeat split.
  - simpl. unfold bind at 1.
    destruct (forEach_subscriptions changedPath q nv ov subs
                (fun sub Hs => Hp q subs sub (or_introl eq_refl) Hs) s)
      as [s1 [con1 [R1 [K1 [S1 [L1 C1]]]]]].
    rewrite R1.
    destruct (IH s1 (fun q' l sub Hin Hs => Hp q' l sub (or_intror Hin) Hs))
      as [s' [con [R [K [S [L C]]]]]].
    exists s', (con1 ++ con). split; [exact R|].
    split; [eapply keeps_trans; eauto|]. split; [congruence|].
    split; [rewrite L, L1, <- app_assoc; reflexivity|].
    rewrite C, C1, <- app_assoc. reflexivity.
Qed.

End Notify.

(** ** One immediate write over calm subscribers *)

Lemma keeps_sameConfig s s' : keeps s s' -> sameConfig s s'.
Proof. unfold keeps, sameConfig. tauto. Qed.

Lemma sameConfig_trans s1 s2 s3 : sameConfig s1 s2 -> sameConfig s2 s3 -> sameConfig s1 s3.
Proof. unfold sameConfig. intuition congruence. Qed.

Lemma calm_transfer s s' :
  middleware s' = middleware s ->
  externalSubscribers s' = externalSubscribers s ->
  allQuiet (subscribers s') ->
  calm s -> calm s'.
Proof. intros Hm He Hq [A [_ P]]. unfold calm. rewrite Hm, He. auto. Qed.

Lemma getState_valid path d track s :
  isValidPath path = true ->
  getState path d track s =
  (get_path (getPathParts path) (VObj false (state s)) (orDefault VNull d),
   if track then trackPath path s else s).
Proof. intros H. unfold getState. now rewrite H. Qed.

Lemma setStateImmediate_calm rec path v ctx s :
  calm s -> isValidPath path = true ->
  exists s',
    _setStateImmediate rec path v ctx s = Ok tt s' /\
    calm s' /\ sameConfig s s' /\ writeOutcome path v s s'.
Proof.
  intros Hcalm Hvalid. pose proof Hcalm as [HI [HQ HP]].
  unfold _setStateImmediate, bind, getStateM.
  rewrite (getState_valid path VNull true s Hvalid). cbn [orDefault].
  fold (valueAt path s).
  pose proof (reads_trackPath path s) as [K0 [S0 [L0 C0]]].
  set (s0 := trackPath path s) in *.
  assert (HI0 : allInert (middleware s0)).
  { destruct K0 as [_ [Hm _]]. rewrite Hm. exact HI. }
  destruct (runMiddleware_inert rec (middleware s0) "Middleware error" path
                                (valueAt path s) v ctx HI0 s0)
    as [s1 [R1 [K1 [S1 C1]]]].
  rewrite R1.
  assert (K01 : keeps s s1) by (eapply keeps_trans; eauto).
  assert (HQ1 : allQuiet (subscribers s1)) by (rewrite S1, S0; exact HQ).
  pose proof K01 as [Kst [Kmw [Kext [Kup [Kcu [Kb [Kq Kp]]]]]]].
  destruct (deepEquals (valueAt path s) v) eqn:Eq.
  - (* unchanged *)
    exists (log LDebug "State unchanged, skipping update" s1).
    split; [reflexivity|].
    split; [apply (calm_transfer s); auto|].
    split; [apply keeps_sameConfig; eapply keeps_trans; [exact K01 | apply keeps_log]|].
    unfold writeOutcome. rewrite Eq. split; [|discriminate]. intros _. simpl.
    repeat split; congruence.
  - unfold modify at 1 2. cbn beta iota.
    set (s2 := with_state (set_path (getPathParts path) v
                                    (state (log LDebug "State updated" s1)))
                          (log LDebug "State updated" s1)).
    assert (Hst2 : state s2 = set_path (getPathParts path) v (state s))
      by (simpl; now rewrite Kst).
    destruct (isUpdating s2) eqn:Eup.
    + (* written inside a running wave *)
      exists s2. split; [reflexivity|].
      split; [apply (calm_transfer s); auto|].
      split; [repeat split; assumption|].
      unfold writeOutcome. rewrite Eq.
      split; [discriminate|]. intros _. split; [exact Hst2|].
      simpl in Eup. split.
      * intros _. simpl. repeat split; congruence.
      * intros Hf. congruence.
    + (* written and notified *)
      unfold modify at 1 2. cbn beta iota.
      set (s3 := with_currentlyUpdating
                   (set_add path (currentlyUpdating (with_isUpdating true s2)))
                   (with_isUpdating true s2)).
      destruct (notifySubscribers_calm rec path v (valueAt path s) s3 HQ1)
        as [s4 [con4 [evs [R4 [[K4 Q4] [L4 [C4 I4]]]]]]].
      rewrite R4.
      assert (HP4 : allPure (externalSubscribers s4)).
      { destruct K4 as [_ [_ [He _]]]. rewrite He. simpl. rewrite Kext. exact HP. }
      destruct (notifyExternalSubscribers_calm rec path v (valueAt path s) s4 HP4)
        as [s5 [con5 [R5 [K5 [S5 [L5 C5]]]]]].
      rewrite R5. unfold modify. eexists. split; [reflexivity|].
      pose proof (keeps_trans _ _ _ K4 K5) as [Jst [Jmw [Jext [Jup [Jcu [Jb [Jq Jp]]]]]]].
      simpl in Jst, Jmw, Jext, Jup, Jcu, Jb, Jq, Jp. simpl in Eup.
      split.
      { apply (calm_transfer s); simpl; try congruence.
        rewrite S5. apply Q4. exact HQ1. }
      split; [repeat split; simpl; congruence|].
      unfold writeOutcome. rewrite Eq.
      split; [discriminate|]. intros _. simpl.
      split; [congruence|]. split; [intros Hf; congruence|]. intros _.
      split; [reflexivity|]. split; [congruence|].
      exists evs. split.
      { split; [exact (proj1 I4)|]. intros q id Hin Hreg.
        apply (proj2 I4 q id Hin). unfold registered in *. simpl.
        rewrite S1, S0. exact Hreg. }
      rewrite C5, C4. simpl. rewrite C1, C0, S1, S0.
      destruct K4 as [_ [_ [He _]]]. rewrite He. simpl. rewrite Kext.
      rewrite <- !app_assoc. reflexivity.
Qed.

(** [setState] outside a batch, over calm subscribers: either the call is
    dropped (invalid path, or the cycle guard), or it ends as [writeOutcome]
    says.  One stack frame is enough. *)
Lemma setState_calm fuel path v ctx s :
  calm s -> isBatching s = false ->
  exists s',
    setState (S fuel) path v ctx s = Ok tt s' /\
    calm s' /\ sameConfig s s' /\
    (((isValidPath path = false \/ set_has path (currentlyUpdating s) = true) /\
      state s' = state s /\ calls s' = calls s /\
      isUpdating s' = isUpdating s /\ currentlyUpdating s' = currentlyUpdating s)
     \/
     (isValidPath path = true /\ set_has path (currentlyUpdating s) = false /\
      writeOutcome path v s s')).
Proof.
  intros Hcalm Hb. cbn [setState]. unfold setState_body.
  destruct (isValidPath path) eqn:Hv; cbn [negb].
  - unfold _hasCircularUpdate. cbn [currentlyUpdating log].
    destruct (set_has path (currentlyUpdating s)) eqn:Hc.
    + eexists. split; [reflexivity|]. split; [exact Hcalm|].
      split; [repeat split|]. left. repeat split. now right.
    + cbn [isBatching log]. rewrite Hb.
      destruct (setStateImmediate_calm (setState fuel) path v ctx
                  (log LDebug "State change initiated" s) Hcalm Hv)
        as [s' [R [Hc' [Hcfg Hw]]]].
      exists s'. split; [exact R|]. split; [exact Hc'|]. split; [exact Hcfg|].
      right. split; [reflexivity|]. split; [reflexivity|]. exact Hw.
  - eexists. split; [reflexivity|]. split; [exact Hcalm|].
    split; [repeat split|]. left. repeat split. now left.
Qed.

(** ** The sample managers are calm *)

Lemma calm_new (init : list (string * value)) : calm (newStateManager init []).
Proof.
  split; [|split].
  - intros mw [].
  - intros q l c [].
  - intros q l sub [].
Qed.

Lemma calm_subscribe path id hier s :
  calm s -> calm (subscribe path (observer id hier) s).
Proof.
  intros [A [Q P]]. split; [exact A | split; [exact Q|]].
  intros q l sub Hin Hsub a b p. simpl in Hin. apply In_assign in Hin.
  destruct Hin as [E|Hin].
  - injection E as -> ->. apply in_app_iff in Hsub. destruct Hsub as [Hsub|[<-|[]]].
    + destruct (lookup path (externalSubscribers s)) eqn:El; [|destruct Hsub].
      apply lookup_In in El. exact (P _ _ _ El Hsub a b p).
    + constructor.
  - exact (P _ _ _ Hin Hsub a b p).
Qed.

(** ** Writing the same value twice *)

(** C5, as amended.  Outside a batch, with middleware that transforms
    nothing and subscribers that neither write nor throw, for every path
    with at least one segment, none of them [__proto__] or [length], and
    every value other than [undefined] that holds no [NaN]: the second of
    two consecutive [setState(path, v)] changes neither the tree nor the
    record of notifications. *)
Theorem setState_twice_second_is_noop fuel path v ctx s :
  calm s -> isBatching s = false ->
  getPathParts path <> [] ->
  Forall (fun k => reservedName k = false) (getPathParts path) ->
  v <> VUndefined -> hasNaN v = false -> wf_value v ->
  exists s1 s2,
    setState (S fuel) path v ctx s = Ok tt s1 /\
    setState (S fuel) path v ctx s1 = Ok tt s2 /\
    state s2 = state s1 /\ calls s2 = calls s1.
Proof.
  intros Hcalm Hb Hparts _ Hv Hnan Hwf.
  destruct (setState_calm fuel path v ctx s Hcalm Hb)
    as [s1 [R1 [Hcalm1 [[_ [_ [Hb1 _]]] Hout1]]]].
  assert (Hb1' : isBatching s1 = false) by congruence.
  destruct (setState_calm fuel path v ctx s1 Hcalm1 Hb1')
    as [s2 [R2 [_ [_ Hout2]]]].
  exists s1, s2. split; [exact R1|]. split; [exact R2|].
  destruct Hout2 as [[_ [Hst [Hcl _]]] | [Hvalid [Hguard [Hsame _]]]]; [now split|].
  assert (Heq : deepEquals (valueAt path s1) v = true).
  { destruct Hout1 as [[Hdrop [_ [_ [_ Hcu]]]] | [_ [_ [Hsame1 Hdiff1]]]].
    - rewrite Hcu in Hguard. destruct Hdrop; congruence.
    - destruct (deepEquals (valueAt path s) v) eqn:E.
      + destruct (Hsame1 eq_refl) as [Hst _]. unfold valueAt in *. now rewrite Hst.
      + destruct (Hdiff1 eq_refl) as [Hst _]. unfold valueAt. rewrite Hst.
        rewrite get_path_set_path by exact Hparts.
        destruct v; try (now apply deepEquals_refl). congruence. }
  destruct (Hsame Heq) as [Hst [Hcl _]]. now split.
Qed.

Lemma setState_twice_witness :
  exists s1 s2,
    setState 1 "x" (VNum 1) emptyRecord watched = Ok tt s1 /\
    setState 1 "x" (VNum 1) emptyRecord s1 = Ok tt s2 /\
    state s2 = state s1 /\ calls s2 = calls s1.
Proof.
  apply (setState_twice_second_is_noop 0 "x" (VNum 1) emptyRecord watched).
  - apply calm_subscribe, calm_new.
  - reflexivity.
  - vm_compute. discriminate.
  - repeat constructor.
  - discriminate.
  - reflexivity.
  - constructor.
Defined.

(** C5 as stated fails for the value [undefined]: the tree reads back as
    the default [null], which is not deep-equal to [undefined], so the
    second call writes and notifies again. *)
Lemma setState_undefined_twice_notifies_twice :
  exists s1 s2,
    setState 1 "x" VUndefined emptyRecord watched = Ok tt s1 /\
    setState 1 "x" VUndefined emptyRecord s1 = Ok tt s2 /\
    calls s1 = [ExternalCall "x" 1 VUndefined VNull "x"] /\
    calls s2 = [ExternalCall "x" 1 VUndefined VNull "x";
                ExternalCall "x" 1 VUndefined VNull "x"].
Proof.
  eexists. eexists. split; [vm_compute; reflexivity|].
  split; [vm_compute; reflexivity|]. split; reflexivity.
Qed.

(** The same happens for [NaN], which [deepEquals] never finds equal to
    itself: the second call writes and notifies again, with [NaN] as the
    old value. *)
Example setState_NaN_twice_notifies_twice :
  exists s1 s2,
    setState 1 "x" VNaN emptyRecord watched = Ok tt s1 /\
    setState 1 "x" VNaN emptyRecord s1 = Ok tt s2 /\
    calls s1 = [ExternalCall "x" 1 VNaN VNull "x"] /\
    calls s2 = [ExternalCall "x" 1 VNaN VNull "x";
                ExternalCall "x" 1 VNaN VNaN "x"].
Proof.
  eexists. eexists. split; [vm_compute; reflexivity|].
  split; [vm_compute; reflexivity|]. split; reflexivity.
Qed.

(** ** Writes issued while a wave is running *)

Lemma nested_refl s : nested s s.
Proof. repeat split. Qed.

Lemma nested_trans s1 s2 s3 : nested s1 s2 -> nested s2 s3 -> nested s1 s3.
Proof. unfold nested. intuition congruence. Qed.

Lemma reads_nested s s' : reads s s' -> nested s s'.
Proof. unfold reads, keeps, nested. intuition. Qed.

Lemma silently_trans (A : Type) s1 s2 (r : result A) :
  nested s1 s2 -> silently s2 r -> silently s1 r.
Proof.
  intros H. destruct r; simpl; auto; intros H'; eapply nested_trans; eauto.
Qed.

Section Nested.

Variable rec : string -> value -> value -> M unit.

Hypothesis rec_silent :
  forall path v ctx s, isUpdating s = true -> silently s (rec path v ctx s).

Lemma run_prog_silent (p : prog) :
  forall s, isUpdating s = true -> silently s (run_prog rec p s).
Proof.
  induction p as [v|m|path d track k IH|path v k IH]; intros s Hup; simpl.
  - apply nested_refl.
  - apply nested_refl.
  - destruct (getState path d track s) as [x s1] eqn:E.
    pose proof (reads_nested _ _ (reads_getState path d track s)) as N.
    rewrite E in N. simpl in N.
    eapply silently_trans; [exact N|]. apply IH.
    destruct N as [N _]. congruence.
  - unfold bind. pose proof (rec_silent path v emptyRecord s Hup) as N.
    destruct (rec path v emptyRecord s) as [[] s1|e s1|]; simpl in N; auto.
    eapply silently_trans; [exact N|]. apply IH.
    destruct N as [N _]. congruence.
Qed.

Lemma runMiddleware_silent (mws : list middlewareFn) (msg path : string)
      (old v ctx : value) :
  forall s, isUpdating s = true ->
            silently s (runMiddleware rec mws msg path old v ctx s).
Proof.
  revert v. induction mws as [|mw rest IH]; intros v s Hup; simpl.
  - apply nested_refl.
  - match goal with |- context [run_prog rec ?p s] =>
      pose proof (run_prog_silent p s Hup) as N;
      destruct (run_prog rec p s) as [r s1|e s1|]
    end; simpl in N; auto.
    + eapply silently_trans; [exact N|]. apply IH. destruct N as [N _]. congruence.
    + eapply silently_trans; [exact N|].
      eapply silently_trans with (s2 := log LError msg s1); [repeat split|].
      apply IH. simpl. destruct N as [N _]. congruence.
Qed.

Lemma setStateImmediate_silent path v ctx s :
  isValidPath path = true -> isUpdating s = true ->
  silently s (_setStateImmediate rec path v ctx s).
Proof.
  intros Hvalid Hup. unfold _setStateImmediate, bind, getStateM.
  rewrite (getState_valid path VNull true s Hvalid). cbn [orDefault].
  pose proof (reads_nested _ _ (reads_trackPath path s)) as N0.
  set (s0 := trackPath path s) in *.
  assert (Hup0 : isUpdating s0 = true) by (destruct N0 as [N _]; congruence).
  pose proof (runMiddleware_silent (middleware s0) "Middleware error" path
                (get_path (getPathParts path) (VObj false (state s)) VNull)
                v ctx s0 Hup0) as N1.
  destruct (runMiddleware rec (middleware s0) "Middleware error" path
              (get_path (getPathParts path) (VObj false (state s)) VNull) v ctx s0)
    as [fv s1|e s1|]; simpl in N1; auto.
  - assert (N01 : nested s s1) by (eapply nested_trans; eauto).
    destruct (deepEquals _ fv).
    + unfold modify. simpl. eapply nested_trans; [exact N01 | repeat split].
    + unfold modify. cbn beta iota.
      assert (Hup1 : isUpdating s1 = true) by (destruct N01 as [N _]; congruence).
      cbn [isUpdating with_state log]. rewrite Hup1. simpl.
      eapply nested_trans; [exact N01 | repeat split].
  - eapply nested_trans; eauto.
Qed.

Lemma setState_body_silent path v ctx s :
  isUpdating s = true -> silently s (setState_body rec path v ctx s).
Proof.
  intros Hup. unfold setState_body.
  destruct (isValidPath path) eqn:Hv; cbn [negb]; [|repeat split].
  unfold _hasCircularUpdate. cbn [currentlyUpdating log].
  destruct (set_has path (currentlyUpdating s)); [repeat split|].
  cbn [isBatching log]. destruct (isBatching s); [repeat split|].
  eapply silently_trans with (s2 := log LDebug "State change initiated" s);
    [repeat split|].
  apply setStateImmediate_silent; auto.
Qed.

End Nested.

(** Whatever the middleware and the subscribers do, a [setState] reached
    while a wave is running notifies nobody. *)
Lemma setState_silent fuel :
  forall path v ctx s, isUpdating s = true -> silently s (setState fuel path v ctx s).
Proof.
  induction fuel as [|fuel IH]; intros path v ctx s Hup; simpl; auto.
  apply setState_body_silent; auto.
Qed.





(** ** Which subscribers a change reaches *)


(** ** The wave at the end of a batch *)








Section BatchWave.

Variable rec : string -> value -> value -> M unit.




End BatchWave.





(** ** Two writes to one path inside a batch *)




(** ** Reading leaves the tree alone *)






(** The write path, by contrast, replaces the number by a fresh record. *)
Example setState_creates_intermediate_records :
  exists s',
    setState 1 "a.b.c" (VNum 1) emptyRecord scalarA = Ok tt s' /\
    state s' = [("a", VObj false [("b", VObj false [("c", VNum 1)])])].
Proof. eexists. split; [vm_compute; reflexivity | reflexivity]. Qed.

(** ** The cycle guard *)


(** The re-entrant write of a subscriber is dropped: the tree keeps the
    value of the outer write and the warning is on the console. *)
Example subscriber_reentry_is_dropped :
  exists s',
    setState 2 "x" (VNum 1) emptyRecord (subscribe "x" echo (newStateManager [] []))
    = Ok tt s' /\
    state s' = [("x", VNum 1)] /\
    In (LWarn, "Circular dependency detected") (console s') /\
    calls s' = [ExternalCall "x" 1 (VNum 1) VNull "x"].
Proof.
  eexists. split; [vm_compute; reflexivity|]. split; [reflexivity|].
  split; [|reflexivity]. simpl. tauto.
Qed.

(** The middleware loop runs before the path enters [currentlyUpdating]:
    a middleware that starts by calling [setState] on the path it is
    transforming is not stopped by the guard, and every stack bound is
    exceeded. *)
Lemma middleware_reentry_exceeds_every_bound mw rest :
  (forall args, exists v' k, mw args = DoSet (mw_path args) v' k) ->
  forall fuel path v ctx s,
    isValidPath path = true -> isBatching s = false ->
    set_has path (currentlyUpdating s) = false ->
    middleware s = mw :: rest ->
    setState fuel path v ctx s = OutOfFuel.
Proof.
  intros Hmw. induction fuel as [|fuel IH]; intros path v ctx s Hv Hb Hg Hm.
  - reflexivity.
  - cbn [setState]. unfold setState_body. rewrite Hv. cbn [negb].
    unfold _hasCircularUpdate. cbn [currentlyUpdating log]. rewrite Hg.
    cbn [isBatching log]. rewrite Hb.
    unfold _setStateImmediate, bind at 1, getStateM.
    rewrite (getState_valid path VNull true _ Hv). cbn [orDefault].
    unfold bind at 1.
    set (s0 := trackPath path (log LDebug "State change initiated" s)).
    assert (Hm0 : middleware s0 = mw :: rest).
    { unfold s0, trackPath. destruct (currentTracking _); exact Hm. }
    assert (Hb0 : isBatching s0 = false).
    { unfold s0, trackPath. destruct (currentTracking _); exact Hb. }
    assert (Hg0 : set_has path (currentlyUpdating s0) = false).
    { unfold s0, trackPath. destruct (currentTracking _); exact Hg. }
    rewrite Hm0. cbn [runMiddleware].
    match goal with
    | |- context [mw ?a] => destruct (Hmw a) as [v' [k Hk]]; rewrite Hk
    end.
    cbn [run_prog mw_path]. unfold bind at 1.
    now rewrite (IH path v' emptyRecord s0 Hv Hb0 Hg0 Hm0).
Qed.

(** C1, at the failing input: with the middleware [reentrant], the call
    [setState("count", 1)] outgrows every bound on the stack; the
    re-entrant write is not dropped. *)
Theorem middleware_reentry_is_not_guarded :
  forall fuel,
    setState fuel "count" (VNum 1) emptyRecord
             (newStateManager [] [reentrant (VNum 0)]) = OutOfFuel.
Proof.
  intros fuel.
  apply (middleware_reentry_exceeds_every_bound (reentrant (VNum 0)) []).
  - intros args. exists (VNum 0), (Return VUndefined). reflexivity.
  - reflexivity.
  - reflexivity.
  - reflexivity.
  - reflexivity.
Qed.

(** ** Subscribers that throw *)

(** An exception of an external subscriber never leaves
    [_notifyExternalSubscribers], whatever the subscribers do. *)
Lemma external_errors_are_contained rec changedPath nv ov s e s' :
  _notifyExternalSubscribers rec changedPath nv ov s <> Exn e s'.
Proof.
  unfold _notifyExternalSubscribers.
  generalize (externalSubscribers s) as ext. intros ext. revert s.
  induction ext as [|[q subs] ext IH]; intros s; simpl; [discriminate|].
  unfold bind at 1.
  assert (Hinner : forall s0 e0 s1,
             forEach subs
               (fun sub =>
                  if shouldNotify sub changedPath q
                  then tryCatch
                         (modify (record (ExternalCall q (sub_id sub) nv ov changedPath)) ;;;
                          run_prog rec (sub_callback sub nv ov changedPath) ;;; ret tt)
                         (fun _ => modify (log LError "External subscriber error:"))
                  else ret tt) s0 <> Exn e0 s1).
  { induction subs as [|sub subs IHs]; intros s0 e0 s1; simpl; [discriminate|].
    unfold bind at 1. destruct (shouldNotify sub changedPath q).
    - unfold tryCatch.
      destruct ((modify (record (ExternalCall q (sub_id sub) nv ov changedPath)) ;;;
                 run_prog rec (sub_callback sub nv ov changedPath) ;;; ret tt) s0)
        as [[] s2|e2 s2|]; [apply IHs | unfold modify; apply IHs | discriminate].
    - unfold ret at 1. apply IHs. }
  match goal with
  | |- context [forEach subs ?f s] =>
      pose proof (Hinner s) as H; destruct (forEach subs f s) as [[] s2|e2 s2|]
  end.
  - apply IH.
  - exfalso. exact (H e2 s2 eq_refl).
  - discriminate.
Qed.

Lemma set_has_add (x : string) (l : list string) : set_has x (set_add x l) = true.
Proof.
  unfold set_has, set_add. destruct (existsb (String.eqb x) l) eqn:E; [exact E|].
  rewrite existsb_app. simpl. now rewrite String.eqb_refl, orb_true_r.
Qed.

(** Whenever the first internal subscriber of the written path throws, the
    [ReferenceError] of the [catch] block reaches the caller of [setState]
    and the manager stays marked as updating. *)
Lemma throwing_internal_subscriber_escapes fuel path v ctx s c rest message :
  isValidPath path = true -> isBatching s = false -> isUpdating s = false ->
  set_has path (currentlyUpdating s) = false -> middleware s = [] ->
  deepEquals (valueAt path s) v = false ->
  lookup path (subscribers s) = Some (c :: rest) -> cb_body c = Throw message ->
  exists s',
    setState (S fuel) path v ctx s = Exn (ReferenceError "oldTracking is not defined") s' /\
    calls s' = calls s ++ [InternalCall path (cb_id c)] /\
    isUpdating s' = true /\ set_has path (currentlyUpdating s') = true.
Proof.
  intros Hv Hb Hup Hg Hm Hne Hsubs Hbody.
  cbn [setState]. unfold setState_body. rewrite Hv. cbn [negb].
  unfold _hasCircularUpdate. cbn [currentlyUpdating log]. rewrite Hg.
  cbn [isBatching log]. rewrite Hb.
  unfold _setStateImmediate, bind at 1, getStateM.
  rewrite (getState_valid path VNull true _ Hv). cbn [orDefault].
  change (state (log LDebug "State change initiated" s)) with (state s).
  fold (valueAt path s). unfold bind at 1.
  set (s0 := trackPath path (log LDebug "State change initiated" s)).
  pose proof (reads_trackPath path (log LDebug "State change initiated" s))
    as [[Kst [Kmw [_ [Kup [Kcu _]]]]] [Ksub [_ Kcl]]].
  fold s0 in Kst, Kmw, Kup, Kcu, Ksub, Kcl. simpl in Kst, Kmw, Kup, Kcu, Ksub, Kcl.
  rewrite Kmw, Hm. cbn [runMiddleware]. unfold ret at 1. rewrite Hne.
  unfold bind at 1. unfold modify at 1. unfold bind at 1. unfold modify at 1.
  cbn beta iota. cbn [isUpdating with_state log]. rewrite Kup, Hup.
  unfold bind at 1. unfold modify at 1. unfold bind at 1. unfold modify at 1.
  cbn beta iota. unfold bind at 1. unfold _notifySubscribers, bind at 1.
  unfold _triggerPathSubscribers.
  cbn [subscribers with_currentlyUpdating with_isUpdating with_state log].
  rewrite Ksub, Hsubs. cbn [forEach]. unfold bind at 1. unfold triggerCallback.
  rewrite Hbody. cbn [run_prog]. unfold throw.
  eexists. split; [reflexivity|]. simpl. rewrite Kcl, Kcu.
  split; [reflexivity|]. split; [reflexivity|]. apply set_has_add.
Qed.

(** C2, at the failing input: the exception of the first internal
    subscriber is logged, then the [catch] block itself raises a
    [ReferenceError] that reaches the caller of [setState]; the second
    internal subscriber and the external subscriber are never called, and
    the manager is left with [isUpdating] set and ["a"] marked as updating. *)
Theorem internal_subscriber_error_escapes :
  forall fuel, exists s',
    setState (S fuel) "a" (VNum 1) emptyRecord fragile
    = Exn (ReferenceError "oldTracking is not defined") s' /\
    calls s' = [InternalCall "a" 7] /\
    In (LError, "Subscriber error:") (console s') /\
    isUpdating s' = true /\ currentlyUpdating s' = ["a"].
Proof.
  intros fuel. eexists. split; [vm_compute; reflexivity|].
  split; [reflexivity|]. split; [simpl; tauto|]. split; reflexivity.
Qed.

(** A thenable comes back as it is and never joins the active set. *)
Lemma promisify_never_counts_a_thenable id r :
  AsyncResolver.trackingPromisify (AsyncResolver.Thenable id) r
  = (AsyncResolver.Given id, r).
Proof.
  unfold AsyncResolver.trackingPromisify. simpl.
  rewrite Nat.eqb_refl, andb_false_r. reflexivity.
Qed.

(** While tracking, the wrapper made for a value that is not a thenable
    joins the active set. *)
Lemma promisify_counts_every_wrapper v r :
  AsyncResolver.isTracking r = true ->
  existsb (AsyncResolver.promise_eqb (AsyncResolver.Fresh (AsyncResolver.allocated r) v))
          (AsyncResolver.activePromises
             (snd (AsyncResolver.trackingPromisify (AsyncResolver.Plain v) r))) = true.
Proof.
  intros Ht. unfold AsyncResolver.trackingPromisify. simpl. rewrite Ht. simpl.
  unfold AsyncResolver.add.
  destruct (existsb _ (AsyncResolver.activePromises r)) eqn:E; [exact E|].
  rewrite existsb_app. simpl. rewrite Nat.eqb_refl. apply orb_true_iff. right. reflexivity.
Qed.

(** C4, at the failing input: with tracking on, [promisify] of a genuine
    thenable leaves the active set empty, and [promisify(5)] puts the
    promise it has just made into the set: the barrier counts the values
    that are not thenables, and only those. *)
Theorem promisify_tracks_the_wrapped_values :
  let r := AsyncResolver.startTracking AsyncResolver.newResolver in
  AsyncResolver.activePromises
    (snd (AsyncResolver.trackingPromisify (AsyncResolver.Thenable 1) r)) = [] /\
  AsyncResolver.activePromises
    (snd (AsyncResolver.trackingPromisify (AsyncResolver.Plain (VNum 5)) r))
  = [AsyncResolver.Fresh 0 (VNum 5)].
Proof. split; reflexivity. Qed.

Lemma getState_fst path d track s :
  fst (getState path d track s) =
  if isValidPath path
  then get_path (getPathParts path) (VObj false (state s)) (orDefault VNull d)
  else orDefault VNull d.
Proof. unfold getState. destruct (isValidPath path); reflexivity. Qed.

Lemma stringMember_cases (s k : string) :
  stringMember s k = VUndefined \/
  (exists n, stringMember s k = VNum n) \/
  (exists c, stringMember s k = VStr c).
Proof.
  unfold stringMember. destruct (String.eqb k "length"); [right; left; eauto|].
  destruct (indexOf k) as [i|]; [|now left].
  destruct (String.get i s); [right; right; eauto|now left].
Qed.

(** What a read through the members of a string can answer: the default, a
    number or a string. *)
Lemma get_path_string parts :
  forall (s : string) (d : value),
    parts <> [] ->
    get_path parts (VStr s) d = d \/
    (exists n, get_path parts (VStr s) d = VNum n) \/
    (exists c, get_path parts (VStr s) d = VStr c).
Proof.
  induction parts as [|p parts IH]; intros s d Hne; [contradiction|].
  cbn [get_path get_prop].
  destruct (stringMember_cases s p) as [-> | [[n ->] | [c ->]]].
  - now left.
  - destruct parts as [|q parts]; [right; left; eexists; reflexivity|]. now left.
  - destruct parts as [|q parts]; [right; right; eexists; reflexivity|].
    apply IH. discriminate.
Qed.

Lemma get_path_default_or_tree parts current d :
  get_path parts current d = d \/
  tree_at parts current = Some (get_path parts current d) \/
  (forall id, get_path parts current d <> VSym id).
Proof.
  revert current. induction parts as [|p parts IH]; intros current.
  - right. now left.
  - destruct current as [| | | |s|id|arr fs|]; try (now left).
    + destruct (get_path_string (p :: parts) s d ltac:(discriminate))
        as [H | [[n H] | [c H]]]; [now left| |]; right; right; rewrite H;
        intros; discriminate.
    + cbn [get_path get_prop tree_at].
      destruct (lookup p fs) as [next|]; [|now left].
      destruct (IH next) as [H | [H | H]].
      * destruct next; auto.
      * destruct next; auto.
      * destruct next; auto.
Qed.

(** Whatever the tree holds, short of a symbol that is yet to be made,
    [newState] writes nothing: the two symbols it compares are distinct. *)
Lemma newState_never_initializes fuel componentId key initial componentStates symbols s :
  tree_at (getPathParts (Component.localPath componentId key)) (VObj false (state s))
  <> Some (VSym (S symbols)) ->
  exists r s',
    Component.newState fuel componentId key initial componentStates symbols s = Ok r s' /\
    state s' = state s /\ calls s' = calls s.
Proof.
  intros Hfresh. unfold Component.newState.
  set (path := Component.localPath componentId key) in *.
  pose proof (reads_getState path (VSym symbols) true s) as [K [_ [_ C]]].
  destruct (getState path (VSym symbols) true s) as [current s1] eqn:E.
  simpl in K, C.
  assert (Hcur : strictEquals current (VSym (S symbols)) = false).
  { assert (Hv : current = fst (getState path (VSym symbols) true s)) by now rewrite E.
    rewrite getState_fst in Hv. cbn [orDefault] in Hv.
    destruct (isValidPath path).
    - destruct (get_path_default_or_tree (getPathParts path) (VObj false (state s))
                                         (VSym symbols)) as [Hd | [Ht | Hn]].
      + rewrite Hd in Hv. subst current. simpl. apply Nat.eqb_neq. lia.
      + rewrite <- Hv in Ht. destruct current; try reflexivity.
        simpl. apply Nat.eqb_neq. intros ->. contradiction.
      + rewrite <- Hv in Hn. destruct current; try reflexivity.
        exfalso. exact (Hn id eq_refl).
    - subst current. simpl. apply Nat.eqb_neq. lia. }
  rewrite Hcur. eexists. eexists. split; [reflexivity|].
  destruct K as [Hst _]. split; [exact Hst | exact C].
Qed.

(** C7, at the failing input: the first [newState("count", 0)] of the
    component [Counter_1] on an empty tree returns its accessors and
    registers the path, yet the tree is still empty: nothing is stored
    under [__local.Counter_1.count]; the getter answers [0] only because
    [0] is its default. *)
Theorem newState_leaves_the_tree_uninitialized :
  forall fuel, exists a s',
    Component.newState fuel "Counter_1" "count" (VNum 0) [] 0 (newStateManager [] [])
    = Ok (a, ["__local.Counter_1.count"], 2) s' /\
    Component.statePath a = "__local.Counter_1.count" /\
    state s' = [] /\
    tree_at ["__local"; "Counter_1"; "count"] (VObj false (state s')) = None /\
    fst (Component.getter a s') = VNum 0.
Proof.
  intros fuel. eexists. eexists. split; [vm_compute; reflexivity|].
  split; [reflexivity|]. split; [reflexivity|]. split; reflexivity.
Qed.

(** C8, as amended.  A reactive text binding has no skip value.  A run
    that returns the value last applied leaves the binding as it is; the
    string ["ignore"], returned on the first run or after another value, is
    written to [textContent] like any text.  A reactive children binding
    does skip it. *)
Theorem reactive_text_has_no_skip_sentinel (b : Renderer.textBinding)
        (c : Renderer.childrenBinding) :
  (forall v, Renderer.textInitialized b = true ->
             strictEquals v (Renderer.lastTextValue b) = true ->
             Renderer.updateText (Renderer.Returns v) b = b) /\
  (Renderer.textInitialized b = false \/
   strictEquals (VStr "ignore") (Renderer.lastTextValue b) = false ->
   Renderer.textContent (Renderer.updateText (Renderer.Returns (VStr "ignore")) b)
   = VStr "ignore") /\
  Renderer.updateChildren (Renderer.Returns (VStr "ignore")) c = c.
Proof.
  split; [|split].
  - intros v Hi He. simpl. unfold Renderer.applyText. now rewrite Hi, He.
  - intros H. simpl. unfold Renderer.applyText.
    destruct H as [-> | ->]; [reflexivity|]. now rewrite orb_true_r.
  - reflexivity.
Qed.

Lemma reactive_text_witness :
  Renderer.updateText (Renderer.Returns (VStr "hello")) greeting = greeting /\
  Renderer.textContent (Renderer.updateText (Renderer.Returns (VStr "ignore")) greeting)
  = VStr "ignore".
Proof.
  destruct (reactive_text_has_no_skip_sentinel greeting (Renderer.newChildrenBinding VNull))
    as [Hsame [Hignore _]].
  split.
  - apply Hsame; reflexivity.
  - apply Hignore. right. reflexivity.
Defined.

(** C8 as stated fails: the re-run that returns ["ignore"] overwrites the
    text ["hello"]. *)
Lemma reactive_text_overwrites_on_ignore :
  Renderer.textContent greeting = VStr "hello" /\
  Renderer.textContent (Renderer.updateText (Renderer.Returns (VStr "ignore")) greeting)
  <> Renderer.textContent greeting.
Proof. split; [reflexivity | vm_compute; discriminate]. Qed.

(** ** Path isolation *)





(** * Further properties of the source *)

(** ** Paths *)

Lemma split_not_nil (sep : ascii) (s : string) : split sep s <> [].
Proof.
  induction s as [|c s IH]; simpl; [discriminate|].
  destruct (Ascii.eqb c sep); [discriminate|].
  destruct (split sep s); [contradiction|discriminate].
Qed.

Lemma split_dotFree (s : string) : Forall (fun x => dotFree x = true) (split "." s).
Proof.
  induction s as [|c s IH]; simpl.
  - constructor; [reflexivity|constructor].
  - destruct (Ascii.eqb c ".") eqn:E.
    + constructor; [reflexivity|exact IH].
    + destruct (split "." s) as [|h t] eqn:Es.
      * constructor; [simpl; now rewrite E|constructor].
      * inversion IH as [|? ? Hh Ht]; subst.
        constructor; [simpl; rewrite E; exact Hh|exact Ht].
Qed.

Lemma split_app_dot (x rest : string) :
  dotFree x = true ->
  split "." (x ++ String "." rest)%string = x :: split "." rest.
Proof.
  induction x as [|c x IH]; simpl; intros H.
  - reflexivity.
  - apply andb_prop in H. destruct H as [Hc Hx].
    apply negb_true_iff in Hc. rewrite Hc. rewrite (IH Hx). reflexivity.
Qed.

Lemma split_single (x : string) : dotFree x = true -> split "." x = [x].
Proof.
  induction x as [|c x IH]; simpl; intros H.
  - reflexivity.
  - apply andb_prop in H. destruct H as [Hc Hx].
    apply negb_true_iff in Hc. rewrite Hc. rewrite (IH Hx). reflexivity.
Qed.

Lemma split_join (parts : list string) :
  parts <> [] -> Forall (fun x => dotFree x = true) parts ->
  split "." (join parts) = parts.
Proof.
  induction parts as [|x parts IH]; intros Hne Hall; [contradiction|].
  inversion Hall as [|? ? Hx Hrest]; subst.
  destruct parts as [|y parts].
  - simpl. apply split_single. exact Hx.
  - change (join (x :: y :: parts)) with (x ++ String "." (join (y :: parts)))%string.
    rewrite (split_app_dot x _ Hx). f_equal. apply IH; [discriminate|exact Hrest].
Qed.

Lemma filter_all (A : Type) (f : A -> bool) (l : list A) :
  Forall (fun x => f x = true) l -> filter f l = l.
Proof.
  induction 1 as [|x l Hx Hl IH]; simpl; [reflexivity|]. rewrite Hx. now f_equal.
Qed.

(** X1: the segments [getPathParts] returns are never empty and never
    contain a dot. *)
Theorem getPathParts_yields_segments (path part : string) :
  In part (getPathParts path) -> segment part = true.
Proof.
  unfold getPathParts, segment. intros H. apply filter_In in H. destruct H as [Hin Hne].
  rewrite Hne. simpl.
  pose proof (split_dotFree path) as Hall. rewrite Forall_forall in Hall. auto.
Qed.

Lemma getPathParts_yields_segments_witness :
  In "b" (getPathParts ".a.b") /\ segment "b" = true.
Proof.
  split; [vm_compute; auto|].
  apply (getPathParts_yields_segments ".a.b" "b"). vm_compute. auto.
Defined.

(** X2: joining segments with dots and splitting the path again gives the
    segments back. *)
Theorem getPathParts_join (parts : list string) :
  Forall (fun x => segment x = true) parts ->
  getPathParts (join parts) = parts.
Proof.
  intros Hall. destruct parts as [|x parts]; [reflexivity|].
  unfold getPathParts. rewrite split_join.
  - apply filter_all. revert Hall. apply Forall_impl. intros a Ha.
    unfold segment in Ha. apply andb_prop in Ha. tauto.
  - discriminate.
  - revert Hall. apply Forall_impl. intros a Ha.
    unfold segment in Ha. apply andb_prop in Ha. tauto.
Qed.

Lemma getPathParts_join_witness :
  getPathParts (join ["user"; "profile"; "name"]) = ["user"; "profile"; "name"].
Proof.
  apply (getPathParts_join ["user"; "profile"; "name"]).
  repeat constructor.
Defined.

Lemma join_cons (x : string) (l : list string) :
  l <> [] -> join (x :: l) = (x ++ String "." (join l))%string.
Proof. destruct l; [contradiction|reflexivity]. Qed.

Lemma join_split (p : string) : join (split "." p) = p.
Proof.
  induction p as [|c p IH]; [reflexivity|]. simpl.
  destruct (Ascii.eqb c ".") eqn:E.
  - apply Ascii.eqb_eq in E. subst c.
    rewrite join_cons by apply split_not_nil. simpl. now rewrite IH.
  - pose proof (split_not_nil "." p) as Hnn.
    destruct (split "." p) as [|h t] eqn:Es; [contradiction|].
    destruct t as [|y t].
    + unfold join in *. simpl in *. congruence.
    + rewrite join_cons by discriminate. rewrite join_cons in IH by discriminate.
      simpl. now rewrite IH.
Qed.

Lemma includes_cons (sub : string) (c : ascii) (s : string) :
  includes sub (String c s) = false -> includes sub s = false.
Proof. simpl. intros H. apply orb_false_elim in H. tauto. Qed.

Lemma no_double_dot (c : ascii) (s : string) :
  includes ".." (String "." (String c s)) = false -> Ascii.eqb c "." = false.
Proof.
  simpl. destruct (Ascii.eqb c ".") eqn:E; [|reflexivity].
  apply Ascii.eqb_eq in E. subst c. simpl. destruct s; discriminate.
Qed.

Lemma split_head_nonEmpty (c : ascii) (s : string) :
  Ascii.eqb c "." = false ->
  exists h t, split "." (String c s) = String c h :: t /\ t = tl (split "." s).
Proof.
  intros E. simpl. rewrite E.
  pose proof (split_not_nil "." s) as Hnn.
  destruct (split "." s) as [|h t]; [contradiction|].
  exists h, t. split; reflexivity.
Qed.

Lemma split_tail_nonEmpty (p : string) :
  includes ".." p = false -> endsWithDot p = false ->
  Forall (fun x => nonEmpty x = true) (tl (split "." p)).
Proof.
  induction p as [|c p IH]; intros Hdots Hend; [constructor|].
  pose proof (includes_cons _ _ _ Hdots) as Hdots'.
  destruct (Ascii.eqb c ".") eqn:E.
  - apply Ascii.eqb_eq in E. subst c. simpl.
    destruct p as [|c' p']; [discriminate|].
    pose proof (no_double_dot c' p' Hdots) as E'.
    destruct (split_head_nonEmpty c' p' E') as [h [t [Hs Ht]]].
    assert (Hend' : endsWithDot (String c' p') = false) by exact Hend.
    specialize (IH Hdots' Hend'). rewrite Hs in *. simpl in IH.
    constructor; [reflexivity|exact IH].
  - destruct (split_head_nonEmpty c p E) as [h [t [Hs Ht]]].
    rewrite Hs. simpl. rewrite Ht.
    destruct p as [|c' p']; [constructor|].
    apply IH; [exact Hdots'|exact Hend].
Qed.

(** X3: for a path without two consecutive dots that neither starts nor
    ends with a dot, joining its segments gives the path back: such a
    path is written in its normal form. *)
Theorem join_getPathParts (path : string) :
  includes ".." path = false ->
  String.prefix "." path = false -> endsWithDot path = false ->
  join (getPathParts path) = path.
Proof.
  intros Hdots Hstart Hend. destruct path as [|c p]; [reflexivity|].
  assert (E : Ascii.eqb c "." = false).
  { destruct (Ascii.eqb c ".") eqn:E; [|reflexivity].
    apply Ascii.eqb_eq in E. subst c. simpl in Hstart. destruct p; discriminate. }
  unfold getPathParts. rewrite filter_all; [apply join_split|].
  pose proof (split_tail_nonEmpty (String c p) Hdots Hend) as Htail.
  destruct (split_head_nonEmpty c p E) as [h [t [Hs Ht]]].
  rewrite Hs in *. simpl in Htail. constructor; [reflexivity|exact Htail].
Qed.

Lemma join_getPathParts_witness :
  join (getPathParts "user.profile.name") = "user.profile.name".
Proof.
  apply (join_getPathParts "user.profile.name"); reflexivity.
Defined.


(** ** Structural equality *)

Lemma everyKey_spec (fa fb : list (string * value)) :
  everyKey fa fb = true <->
  forall k va, In (k, va) fa ->
               exists vb, lookup k fb = Some vb /\ deepEquals va vb = true.
Proof.
  unfold everyKey. rewrite forallb_forall. split.
  - intros H k va Hin. specialize (H (k, va) Hin). simpl in H.
    destruct (lookup k fb) as [vb|]; [|discriminate]. exists vb. auto.
  - intros H [k va] Hin. simpl. destruct (H k va Hin) as [vb [-> Hd]]. exact Hd.
Qed.

Lemma value_size_field (arr : bool) (k : string) (x : value) (fs : list (string * value)) :
  In (k, x) fs -> value_size x < value_size (VObj arr fs).
Proof.
  simpl. induction fs as [|e fs IH]; intros Hin; [destruct Hin|].
  simpl. destruct Hin as [->|Hin]; simpl; [lia|]. specialize (IH Hin). lia.
Qed.

Lemma deepEquals_prim_sym (a b : value) :
  (forall arr fs, a <> VObj arr fs) -> deepEquals a b = true -> a = b.
Proof.
  intros Hno. destruct a as [| |x|x|x|x|arr fs|]; destruct b as [| |y|y|y|y|arr' fs'|];
    simpl; try discriminate; try reflexivity; intros H.
  - apply Bool.eqb_prop in H. now subst.
  - apply Z.eqb_eq in H. now subst.
  - apply String.eqb_eq in H. now subst.
  - apply Nat.eqb_eq in H. now subst.
  - exfalso. apply (Hno arr fs). reflexivity.
Qed.

(** X4: on records with distinct keys, [deepEquals] does not depend on the
    order of its arguments. *)
Theorem deepEquals_sym (a b : value) :
  wf_value a -> wf_value b -> deepEquals a b = true -> deepEquals b a = true.
Proof.
  remember (value_size a) as n eqn:Hn.
  revert a b Hn. induction n as [n IH] using lt_wf_ind. intros a b Hn Hwa Hwb Hab.
  destruct a as [| |x|x|x|x|arr fa|].
  1-6: match type of Hab with
       | deepEquals ?x ?y = true =>
           pose proof (deepEquals_prim_sym x y ltac:(intros; discriminate) Hab) as E
       end; subst b; exact Hab.
  2: discriminate.
  destruct b as [| |y|y|y|y|arr' fb|]; try discriminate.
  rewrite deepEquals_obj in Hab. rewrite deepEquals_obj.
  apply andb_prop in Hab. destruct Hab as [Hab Hevery].
  apply andb_prop in Hab. destruct Hab as [Harr Hlen].
  apply Bool.eqb_prop in Harr. subst arr'. apply Nat.eqb_eq in Hlen.
  rewrite Bool.eqb_reflx, Hlen, Nat.eqb_refl. simpl.
  inversion Hwa as [| | | | | |? ? Hnda Halla|]; subst.
  inversion Hwb as [| | | | | |? ? Hndb Hallb|]; subst.
  rewrite everyKey_spec in Hevery. apply everyKey_spec.
  assert (Hincl : incl (keys fa) (keys fb)).
  { intros k Hk. unfold keys in Hk. apply in_map_iff in Hk.
    destruct Hk as [[k' va] [Hk' Hin]]. simpl in Hk'. subst k'.
    destruct (Hevery k va Hin) as [vb [Hl _]].
    apply lookup_In in Hl. apply (in_map fst) in Hl. exact Hl. }
  assert (Hincl' : incl (keys fb) (keys fa)).
  { apply (NoDup_length_incl Hnda); [|exact Hincl].
    unfold keys. rewrite !length_map. lia. }
  intros k vb Hinb.
  assert (Hk : In k (keys fa)).
  { apply Hincl'. apply (in_map fst) in Hinb. exact Hinb. }
  unfold keys in Hk. apply in_map_iff in Hk.
  destruct Hk as [[k' va] [Hk' Hina]]. simpl in Hk'. subst k'.
  exists va. split; [apply lookup_NoDup_In; assumption|].
  destruct (Hevery k va Hina) as [vb' [Hl Hd]].
  rewrite (lookup_NoDup_In _ _ _ _ Hndb Hinb) in Hl. injection Hl as <-.
  rewrite Forall_forall in Halla, Hallb.
  exact (IH _ (value_size_field arr k va fa Hina) va vb eq_refl
            (Halla (k, va) Hina) (Hallb (k, vb) Hinb) Hd).
Qed.

Lemma deepEquals_sym_witness :
  deepEquals (VObj false [("b", VNum 2); ("a", VNum 1)])
             (VObj false [("a", VNum 1); ("b", VNum 2)]) = true.
Proof.
  apply (deepEquals_sym (VObj false [("a", VNum 1); ("b", VNum 2)])
                        (VObj false [("b", VNum 2); ("a", VNum 1)])).
  - constructor; [repeat constructor; simpl; intuition discriminate|repeat constructor].
  - constructor; [repeat constructor; simpl; intuition discriminate|repeat constructor].
  - reflexivity.
Defined.

(** X5: [deepEquals] is transitive. *)
Theorem deepEquals_trans (a b c : value) :
  deepEquals a b = true -> deepEquals b c = true -> deepEquals a c = true.
Proof.
  remember (value_size a) as n eqn:Hn.
  revert a b c Hn. induction n as [n IH] using lt_wf_ind. intros a b c Hn Hab Hbc.
  destruct a as [| |x|x|x|x|arr fa|].
  1-6: match type of Hab with
       | deepEquals ?x ?y = true =>
           rewrite <- (deepEquals_prim_sym x y ltac:(intros; discriminate) Hab) in Hbc
       end; exact Hbc.
  2: discriminate.
  destruct b as [| |y|y|y|y|arr' fb|]; try discriminate.
  destruct c as [| |z|z|z|z|arr'' fc|]; try discriminate.
  rewrite deepEquals_obj in Hab, Hbc. rewrite deepEquals_obj.
  apply andb_prop in Hab. destruct Hab as [Hab Hevery].
  apply andb_prop in Hab. destruct Hab as [Harr Hlen].
  apply andb_prop in Hbc. destruct Hbc as [Hbc Hevery'].
  apply andb_prop in Hbc. destruct Hbc as [Harr' Hlen'].
  apply Bool.eqb_prop in Harr, Harr'. subst arr' arr''.
  apply Nat.eqb_eq in Hlen, Hlen'.
  rewrite Bool.eqb_reflx, Hlen, Hlen', Nat.eqb_refl. simpl.
  rewrite everyKey_spec in Hevery, Hevery'. apply everyKey_spec.
  intros k va Hina.
  destruct (Hevery k va Hina) as [vb [Hlb Hdab]].
  destruct (Hevery' k vb (lookup_In _ _ _ _ Hlb)) as [vc [Hlc Hdbc]].
  exists vc. split; [exact Hlc|]. subst n.
  exact (IH _ (value_size_field arr k va fa Hina) va vb vc eq_refl Hdab Hdbc).
Qed.

Lemma deepEquals_trans_witness :
  deepEquals (VObj false [("a", VNum 1); ("b", VNum 2)])
             (VObj false [("a", VNum 1); ("b", VNum 2)]) = true.
Proof.
  apply (deepEquals_trans _ (VObj false [("b", VNum 2); ("a", VNum 1)]) _);
    reflexivity.
Defined.

(** ** Writes and the reads that follow *)

(** X6: outside a batch, over callbacks that leave the tree alone, after
    [setState(p, v)] on a valid path that is not being updated, with at
    least one segment and none that is [__proto__] or [length], for a value
    other than [undefined] that holds no [NaN]: [getState(p)] answers a
    value that [deepEquals] finds equal to [v]. *)
Theorem setState_then_getState fuel (p : string) (v ctx : value) (s : StateManager) :
  calm s -> isBatching s = false ->
  isValidPath p = true -> getPathParts p <> [] ->
  Forall (fun k => reservedName k = false) (getPathParts p) ->
  set_has p (currentlyUpdating s) = false ->
  wf_value v -> hasNaN v = false -> v <> VUndefined ->
  exists s',
    setState (S fuel) p v ctx s = Ok tt s' /\
    deepEquals (fst (getState p VUndefined true s')) v = true.
Proof.
  intros Hcalm Hb Hvalid Hparts _ Hcu Hwf Hnan Hv.
  destruct (setState_calm fuel p v ctx s Hcalm Hb) as [s' [Hrun [_ [_ Hcases]]]].
  exists s'. split; [exact Hrun|].
  rewrite getState_fst, Hvalid. simpl orDefault.
  destruct Hcases as [[[Hbad|Hbad] _]|[_ [_ [Hsame Hwritten]]]].
  - rewrite Hvalid in Hbad. discriminate.
  - rewrite Hcu in Hbad. discriminate.
  - destruct (deepEquals (valueAt p s) v) eqn:Hd.
    + destruct (Hsame eq_refl) as [Hst _]. rewrite Hst. exact Hd.
    + destruct (Hwritten eq_refl) as [Hst _]. rewrite Hst.
      rewrite (get_path_set_path _ v VNull false (state s) Hparts).
      destruct v; try (apply deepEquals_refl; assumption). contradiction.
Qed.

Lemma setState_then_getState_witness :
  exists s',
    setState 1 "user.name" (VStr "Bob") emptyRecord profile = Ok tt s' /\
    deepEquals (fst (getState "user.name" VUndefined true s')) (VStr "Bob") = true.
Proof.
  apply (setState_then_getState 0 "user.name" (VStr "Bob") emptyRecord profile).
  - apply calm_new.
  - reflexivity.
  - reflexivity.
  - discriminate.
  - repeat constructor.
  - reflexivity.
  - constructor.
  - reflexivity.
  - discriminate.
Defined.

(** X8: outside a batch, over callbacks that leave the tree alone, when
    [getState(path)] answers [null] (the path is absent, or holds [null] or
    [undefined]) and no segment of the path is a name that a prototype
    defines, [setState(path, null)] writes nothing and notifies nobody: a
    path that is absent is not created by it. *)
Theorem setState_null_creates_nothing fuel (p : string) (ctx : value) (s : StateManager) :
  calm s -> isBatching s = false ->
  Forall (fun k => inheritedName k = false) (getPathParts p) ->
  fst (getState p VUndefined false s) = VNull ->
  exists s',
    setState (S fuel) p VNull ctx s = Ok tt s' /\
    state s' = state s /\ calls s' = calls s.
Proof.
  intros Hcalm Hb _ Hnull.
  destruct (setState_calm fuel p VNull ctx s Hcalm Hb) as [s' [Hrun [_ [_ Hcases]]]].
  exists s'. split; [exact Hrun|].
  destruct Hcases as [[_ [Hst [Hc _]]]|[Hvalid [_ [Hsame _]]]]; [now split|].
  rewrite getState_fst, Hvalid in Hnull. simpl orDefault in Hnull.
  unfold valueAt in Hsame. rewrite Hnull in Hsame.
  destruct (Hsame eq_refl) as [Hst [Hc _]]. now split.
Qed.

Lemma setState_null_creates_nothing_witness :
  exists s',
    setState 1 "user.email" VNull emptyRecord profile = Ok tt s' /\
    state s' = state profile /\ calls s' = calls profile.
Proof.
  apply (setState_null_creates_nothing 0 "user.email" emptyRecord profile).
  - apply calm_new.
  - reflexivity.
  - repeat constructor.
  - reflexivity.
Defined.



(** ** The registries *)

Lemma assign_same_value (A : Type) (k : string) (v : A) (l : list (string * A)) :
  lookup k l = Some v -> assign k v l = l.
Proof.
  induction l as [|[k' v'] l IH]; simpl; [discriminate|].
  destruct (String.eqb k k') eqn:E.
  - intros [= ->]. reflexivity.
  - intros H. now rewrite (IH H).
Qed.

Lemma assign_assign (A : Type) (k : string) (v w : A) (l : list (string * A)) :
  assign k v (assign k w l) = assign k v l.
Proof.
  induction l as [|[k' v'] l IH]; simpl.
  - now rewrite String.eqb_refl.
  - destruct (String.eqb k k') eqn:E; simpl; rewrite E; [reflexivity|now rewrite IH].
Qed.

Lemma remove_assign_new (A : Type) (k : string) (v : A) (l : list (string * A)) :
  lookup k l = None -> remove k (assign k v l) = l.
Proof.
  induction l as [|[k' v'] l IH]; simpl.
  - now rewrite String.eqb_refl.
  - destruct (String.eqb k k') eqn:E; [discriminate|].
    intros H. simpl. rewrite E. now rewrite (IH H).
Qed.

Lemma keys_assign_present (A : Type) (k : string) (v w : A) (l : list (string * A)) :
  lookup k l = Some w -> keys (assign k v l) = keys l.
Proof.
  revert w. induction l as [|[k' v'] l IH]; simpl; [discriminate|].
  intros w. destruct (String.eqb k k') eqn:E.
  - reflexivity.
  - intros H. simpl. f_equal. exact (IH w H).
Qed.

Lemma In_remove (A : Type) (k : string) (l : list (string * A)) (e : string * A) :
  In e (remove k l) -> In e l.
Proof.
  induction l as [|[k' v'] l IH]; simpl; [tauto|].
  destruct (String.eqb k k'); simpl; [tauto|]. intros [H|H]; auto.
Qed.

Lemma remove_NoDup_gone (A : Type) (k : string) (l : list (string * A)) :
  NoDup (keys l) -> ~ In k (keys (remove k l)).
Proof.
  induction l as [|[k' v'] l IH]; simpl; [tauto|].
  intros Hnd. inversion Hnd as [|? ? Hnotin Hnd']; subst.
  destruct (String.eqb k k') eqn:E.
  - apply String.eqb_eq in E. now subst k'.
  - simpl. intros [H|H].
    + subst k'. rewrite String.eqb_refl in E. discriminate.
    + exact (IH Hnd' H).
Qed.

Lemma with_externalSubscribers_same (s : StateManager) :
  with_externalSubscribers (externalSubscribers s) s = s.
Proof. destruct s. reflexivity. Qed.

Lemma with_externalSubscribers_twice (a b : list (string * list subscription))
      (s : StateManager) :
  with_externalSubscribers a (with_externalSubscribers b s) = with_externalSubscribers a s.
Proof. reflexivity. Qed.

Lemma filter_fresh (id : nat) (subs : list subscription) :
  (forall x, In x subs -> sub_id x <> id) ->
  filter (fun x => negb (Nat.eqb id (sub_id x))) subs = subs.
Proof.
  intros H. apply filter_all. apply Forall_forall. intros x Hx.
  apply negb_true_iff. apply Nat.eqb_neq. intros Heq. exact (H x Hx (eq_sym Heq)).
Qed.

(** X10: calling the closure [subscribe] returned right away restores the
    registry of external subscribers, entry order included. *)
Theorem unsubscribe_undoes_subscribe (path : string) (sub : subscription)
        (s : StateManager) :
  (forall x, In x (orEmpty (lookup path (externalSubscribers s))) ->
             sub_id x <> sub_id sub) ->
  lookup path (externalSubscribers s) <> Some [] ->
  unsubscribe path (sub_id sub) (subscribe path sub s) = s.
Proof.
  intros Hfresh Hnonempty. unfold unsubscribe, subscribe. simpl.
  rewrite lookup_assign_same. rewrite filter_app. simpl.
  rewrite Nat.eqb_refl. simpl. rewrite app_nil_r.
  rewrite (filter_fresh (sub_id sub) _ Hfresh).
  destruct (lookup path (externalSubscribers s)) as [subs|] eqn:El; simpl.
  - destruct subs as [|x subs]; [contradiction|].
    rewrite assign_assign. rewrite (assign_same_value _ _ _ _ El).
    rewrite with_externalSubscribers_twice. apply with_externalSubscribers_same.
  - rewrite (remove_assign_new _ _ _ _ El).
    rewrite with_externalSubscribers_twice. apply with_externalSubscribers_same.
Qed.

Lemma unsubscribe_undoes_subscribe_witness :
  unsubscribe "x" 2 (subscribe "x" (observer 2 true) watched) = watched.
Proof.
  apply (unsubscribe_undoes_subscribe "x" (observer 2 true) watched).
  - simpl. intros x [<-|[]]. discriminate.
  - discriminate.
Defined.





Lemma cb_in_add (c : callback) (l : list callback) : cb_in c (cb_add c l) = true.
Proof.
  unfold cb_add. destruct (cb_in c l) eqn:E; [exact E|].
  unfold cb_in. rewrite existsb_app. simpl. rewrite Nat.eqb_refl.
  now rewrite orb_true_r.
Qed.

(** X12: subscribing an internal callback that is already subscribed to
    the path changes nothing: its set holds it once. *)
Theorem subscribeInternal_twice (path : string) (c : callback) (s : StateManager) :
  subscribeInternal path c (subscribeInternal path c s) = subscribeInternal path c s.
Proof.
  unfold subscribeInternal. simpl. rewrite lookup_assign_same. simpl.
  unfold cb_add at 1. rewrite cb_in_add. rewrite assign_assign. reflexivity.
Qed.

(** ** Dependency tracking *)

Lemma getState_snd (path : string) (d : value) (track : bool) (s : StateManager) :
  snd (getState path d track s) =
  if track && isValidPath path then trackPath path s else s.
Proof.
  unfold getState. destruct (isValidPath path), track; reflexivity.
Qed.

Lemma readAll_tracking (rs : list (string * bool)) :
  forall (s : StateManager) (acc : list string),
    currentTracking s = Some acc ->
    currentTracking (readAll rs s) =
    Some (fold_left (fun a x => set_add x a)
                    (map fst (filter (fun r => snd r && isValidPath (fst r)) rs)) acc)
    /\ state (readAll rs s) = state s.
Proof.
  induction rs as [|[p t] rs IH]; intros s acc Hacc.
  - split; [exact Hacc|reflexivity].
  - change (readAll ((p, t) :: rs) s)
      with (readAll rs (snd (getState p VUndefined t s))).
    rewrite getState_snd. simpl filter. simpl fst. simpl snd.
    destruct (t && isValidPath p) eqn:E.
    + unfold trackPath. rewrite Hacc.
      destruct (IH (with_currentTracking (Some (set_add p acc)) s)
                   (set_add p acc) eq_refl) as [H1 H2].
      split; [exact H1|exact H2].
    + exact (IH s acc Hacc).
Qed.

(** X13: between [startTracking] and [endTracking], the set collected is
    the set of the valid paths read with tracking on, each once, in the
    order of their first read; reads of invalid paths and reads with
    [track = false] leave no trace, and the tree is as before. *)
Theorem tracking_collects_tracked_reads (rs : list (string * bool)) (s : StateManager) :
  let s1 := readAll rs (startTracking s) in
  fst (endTracking s1) =
  set_of (map fst (filter (fun r => snd r && isValidPath (fst r)) rs)) /\
  currentTracking (snd (endTracking s1)) = None /\
  state (snd (endTracking s1)) = state s.
Proof.
  intros s1.
  destruct (readAll_tracking rs (startTracking s) [] eq_refl) as [Ht Hs].
  unfold endTracking. simpl. fold s1 in Ht, Hs. rewrite Ht. simpl.
  split; [reflexivity|]. split; [reflexivity|exact Hs].
Qed.

(** ** Batches *)

Lemma queues_refl (s : StateManager) : queues s s.
Proof. unfold queues. tauto. Qed.

Lemma queues_trans (s1 s2 s3 : StateManager) : queues s1 s2 -> queues s2 s3 -> queues s1 s3.
Proof.
  unfold queues. intros [A1 [A2 [A3 [A4 [A5 [A6 [A7 A8]]]]]]] [B1 [B2 [B3 [B4 [B5 [B6 [B7 B8]]]]]]].
  repeat split; etransitivity; eassumption.
Qed.

Lemma queueBatchedUpdate_tidy (p : string) (v c : value) (s : StateManager) :
  isValidPath p = true -> tidyQueue s -> tidyQueue (_queueBatchedUpdate p v c s).
Proof.
  intros Hvalid [Hnd Hall]. unfold tidyQueue, _queueBatchedUpdate. simpl.
  assert (Hsub : forall x,
             In x (map u_path (filter (fun u => negb (String.eqb (u_path u) p)) (batchQueue s)))
             -> x <> p /\ In x (map u_path (batchQueue s))).
  { intros x Hx. apply in_map_iff in Hx. destruct Hx as [u [<- Hu]].
    apply filter_In in Hu. destruct Hu as [Hu Hne].
    apply negb_true_iff in Hne. apply String.eqb_neq in Hne.
    split; [exact Hne|]. apply in_map. exact Hu. }
  split.
  - rewrite map_app. simpl.
    assert (Hndf : NoDup (map u_path (filter (fun u => negb (String.eqb (u_path u) p))
                                             (batchQueue s)))).
    { clear Hsub Hall. induction (batchQueue s) as [|u q IH]; simpl; [constructor|].
      inversion Hnd as [|? ? Hnotin Hnd']; subst.
      destruct (negb (String.eqb (u_path u) p)); simpl; [|exact (IH Hnd')].
      constructor; [|exact (IH Hnd')].
      intros Hin. apply Hnotin. apply in_map_iff in Hin. destruct Hin as [u' [Heq Hu']].
      apply filter_In in Hu'. rewrite <- Heq. apply in_map. tauto. }
    apply NoDup_app; [exact Hndf|repeat constructor; simpl; tauto|].
    intros x Hx [<-|[]]. destruct (Hsub _ Hx) as [Hne _]. now apply Hne.
  - apply Forall_app. split.
    + apply Forall_forall. intros u Hu. apply filter_In in Hu.
      rewrite Forall_forall in Hall. apply Hall. tauto.
    + constructor; [exact Hvalid|constructor].
Qed.

Lemma setState_while_batching fuel (p : string) (v c : value) (s : StateManager) :
  isBatching s = true -> tidyQueue s ->
  exists s',
    setState (S fuel) p v c s = Ok tt s' /\ queues s s' /\ tidyQueue s' /\
    currentTracking s' = currentTracking s /\
    batchQueue s' =
    (if isValidPath p && negb (set_has p (currentlyUpdating s))
     then filter (fun u => negb (String.eqb (u_path u) p)) (batchQueue s)
          ++ [{| u_path := p; u_value := v; u_context := c |}]
     else batchQueue s).
Proof.
  intros Hb Htidy. simpl. unfold setState_body.
  destruct (isValidPath p) eqn:Ev; simpl.
  - unfold _hasCircularUpdate. simpl.
    destruct (set_has p (currentlyUpdating s)) eqn:Ec; simpl.
    + eexists. split; [reflexivity|]. split; [unfold queues; simpl; tauto|].
      split; [exact Htidy|]. split; reflexivity.
    + rewrite Hb. eexists. split; [reflexivity|].
      split; [unfold queues; simpl; tauto|].
      split; [|split; reflexivity].
      apply (queueBatchedUpdate_tidy p v c (log LDebug "State change initiated" s) Ev).
      exact Htidy.
  - eexists. split; [reflexivity|]. split; [unfold queues; simpl; tauto|].
    split; [exact Htidy|]. split; reflexivity.
Qed.









Lemma queues_getState (path : string) (d : value) (track : bool) (s : StateManager) :
  queues s (snd (getState path d track s)) /\
  batchQueue (snd (getState path d track s)) = batchQueue s.
Proof.
  destruct (reads_getState path d track s)
    as [[Kst [Kmw [Kext [Kup [Kcu [Kb [Kq Kp]]]]]]] [Ks [_ Kc]]].
  unfold queues. tauto.
Qed.

Lemma run_prog_while_batching fuel (p : prog) :
  forall s : StateManager,
    isBatching s = true -> tidyQueue s ->
    exists s',
      ((exists v, run_prog (setState (S fuel)) p s = Ok v s') \/
       (exists m, run_prog (setState (S fuel)) p s = Exn (JsError m) s')) /\
      queues s s' /\ tidyQueue s'.
Proof.
  induction p as [v|m|path d track k IH|path v k IH]; intros s Hb Htidy.
  - exists s. split; [left; exists v; reflexivity|]. split; [apply queues_refl|exact Htidy].
  - exists s. split; [right; exists m; reflexivity|]. split; [apply queues_refl|exact Htidy].
  - cbn [run_prog].
    destruct (queues_getState path d track s) as [Hq Hqueue].
    destruct (getState path d track s) as [x s1] eqn:Eg. cbn [snd] in Hq, Hqueue.
    assert (Hb1 : isBatching s1 = true).
    { destruct Hq as [_ [_ [_ [_ [_ [_ [H _]]]]]]]. now rewrite H. }
    assert (Ht1 : tidyQueue s1) by (unfold tidyQueue; rewrite Hqueue; exact Htidy).
    destruct (IH x s1 Hb1 Ht1) as [s' [Hrun [Hq' Ht']]].
    exists s'. split; [exact Hrun|]. split; [exact (queues_trans _ _ _ Hq Hq')|exact Ht'].
  - cbn [run_prog]. unfold bind.
    destruct (setState_while_batching fuel path v emptyRecord s Hb Htidy)
      as [s1 [R1 [Hq [Ht1 _]]]].
    rewrite R1.
    assert (Hb1 : isBatching s1 = true).
    { destruct Hq as [_ [_ [_ [_ [_ [_ [H _]]]]]]]. now rewrite H. }
    destruct (IH s1 Hb1 Ht1) as [s' [Hrun [Hq' Ht']]].
    exists s'. split; [exact Hrun|]. split; [exact (queues_trans _ _ _ Hq Hq')|exact Ht'].
Qed.


Lemma setStates_while_batching fuel (ws : list (string * value)) :
  forall s : StateManager,
    isBatching s = true -> tidyQueue s ->
    exists s', setStates (S fuel) ws s = Ok tt s' /\ queues s s' /\ tidyQueue s'.
Proof.
  induction ws as [|w ws IH]; intros s Hb Htidy.
  - exists s. split; [reflexivity|]. split; [apply queues_refl|exact Htidy].
  - unfold setStates. cbn [forEach]. unfold bind.
    destruct (setState_while_batching fuel (fst w) (snd w) emptyRecord s Hb Htidy)
      as [s1 [R1 [Hq [Ht1 _]]]].
    rewrite R1.
    assert (Hb1 : isBatching s1 = true).
    { destruct Hq as [_ [_ [_ [_ [_ [_ [H _]]]]]]]. now rewrite H. }
    destruct (IH s1 Hb1 Ht1) as [s' [R [Hq' Ht']]].
    exists s'. split; [exact R|]. split; [exact (queues_trans _ _ _ Hq Hq')|exact Ht'].
Qed.



Lemma tidyQueue_beginBatch (s : StateManager) : tidyQueue (beginBatch s).
Proof. split; constructor. Qed.




(** X14: from [beginBatch] on, whatever middleware and subscribers are
    registered, no [setState] changes the tree or notifies anybody, and
    the queue never holds two updates for one path. *)
Theorem open_batch_defers_every_write fuel (ws : list (string * value))
        (s : StateManager) :
  exists s',
    (modify beginBatch ;;; setStates (S fuel) ws) s = Ok tt s' /\
    state s' = state s /\ calls s' = calls s /\
    isBatching s' = true /\ NoDup (map u_path (batchQueue s')).
Proof.
  unfold bind, modify.
  destruct (setStates_while_batching fuel ws (beginBatch s) eq_refl
                                     (tidyQueue_beginBatch s))
    as [s' [R [[Hst [_ [_ [_ [_ [_ [Hb Hc]]]]]]] [Hnd _]]]].
  exists s'. rewrite R. split; [reflexivity|].
  split; [exact Hst|]. split; [exact Hc|]. split; [exact Hb|exact Hnd].
Qed.

(** X15: [clearBatch] throws the queued writes away: the [endBatch] that
    follows applies nothing and notifies nobody. *)
Theorem clearBatch_discards_the_writes fuel (ws : list (string * value))
        (s : StateManager) :
  exists s',
    (modify beginBatch ;;; setStates (S fuel) ws ;;;
     modify clearBatch ;;; endBatch fuel) s = Ok tt s' /\
    state s' = state s /\ calls s' = calls s /\
    isBatching s' = false /\ batchQueue s' = [].
Proof.
  unfold bind at 1. unfold modify at 1.
  destruct (setStates_while_batching fuel ws (beginBatch s) eq_refl
                                     (tidyQueue_beginBatch s))
    as [s1 [R [[Hst [_ [_ [_ [_ [_ [Hb Hc]]]]]]] _]]].
  unfold bind at 1. rewrite R. unfold bind, modify.
  simpl in Hb. unfold clearBatch. rewrite Hb.
  unfold endBatch, endBatch_body. simpl.
  eexists. split; [reflexivity|]. simpl. tauto.
Qed.

(** X16: [reset] inside an open batch drops the queue and closes the
    batch: the tree is the clone of the snapshot, nobody is notified of the
    change, and the [endBatch] that follows only warns. *)
Theorem reset_inside_a_batch fuel (ws init : list (string * value))
        (s : StateManager) :
  exists s',
    (modify beginBatch ;;; setStates (S fuel) ws ;;;
     modify (reset init) ;;; endBatch fuel) s = Ok tt s' /\
    state s' = jsonFields init /\ calls s' = calls s /\
    isBatching s' = false /\ batchQueue s' = [] /\
    In (LWarn, "endBatch() called without beginBatch()") (console s').
Proof.
  unfold bind at 1. unfold modify at 1.
  destruct (setStates_while_batching fuel ws (beginBatch s) eq_refl
                                     (tidyQueue_beginBatch s))
    as [s1 [R [[Hst [_ [_ [_ [_ [_ [Hb Hc]]]]]]] _]]].
  unfold bind at 1. rewrite R. unfold bind, modify.
  simpl in Hb. unfold reset. cbn [isBatching log]. rewrite Hb.
  unfold endBatch, endBatch_body. simpl.
  eexists. split; [reflexivity|]. simpl.
  split; [reflexivity|]. split; [exact Hc|]. split; [reflexivity|].
  split; [reflexivity|]. apply in_or_app. right. now left.
Qed.




(** X18: an [executeBatch] called while a batch is open runs its callback
    inside that batch: nothing is applied, nobody is notified, and the
    batch stays open, whether the callback returns or throws. *)
Theorem executeBatch_inside_a_batch fuel (callback : prog) (s : StateManager) :
  isBatching s = true -> tidyQueue s ->
  exists s',
    ((exists v, executeBatch (S fuel) callback s = Ok v s') \/
     (exists m, executeBatch (S fuel) callback s = Exn (JsError m) s')) /\
    state s' = state s /\ calls s' = calls s /\ isBatching s' = true.
Proof.
  intros Hb Htidy. unfold executeBatch. rewrite Hb.
  destruct (run_prog_while_batching fuel callback s Hb Htidy)
    as [s' [Hrun [[Hst [_ [_ [_ [_ [_ [Hb' Hc]]]]]]] _]]].
  exists s'. split; [exact Hrun|]. split; [exact Hst|]. split; [exact Hc|].
  now rewrite Hb'.
Qed.

Lemma executeBatch_inside_a_batch_witness :
  exists s',
    ((exists v, executeBatch 1 halfway relayingInBatch = Ok v s') \/
     (exists m, executeBatch 1 halfway relayingInBatch = Exn (JsError m) s')) /\
    state s' = state relayingInBatch /\ calls s' = calls relayingInBatch /\
    isBatching s' = true.
Proof.
  apply (executeBatch_inside_a_batch 0 halfway relayingInBatch).
  - reflexivity.
  - apply tidyQueue_beginBatch.
Defined.





(** ** The snapshot of [reset] *)

Lemma jsonClone_obj (arr : bool) (fs : list (string * value)) :
  jsonClone (VObj arr fs) = Some (VObj arr (cloneFields arr fs)).
Proof.
  simpl. do 2 f_equal. unfold cloneFields.
  induction fs as [|[k x] fs IH]; simpl; [reflexivity|].
  rewrite IH. destruct (jsonClone x); [reflexivity|]. destruct arr; reflexivity.
Qed.

Lemma jsonClone_idempotent (v : value) :
  forall w, jsonClone v = Some w -> jsonClone w = Some w.
Proof.
  remember (value_size v) as n eqn:Hn.
  revert v Hn. induction n as [n IH] using lt_wf_ind. intros v Hn w Hw.
  destruct v as [| |b|z|s|id|arr fs|]; try discriminate;
    try (injection Hw as <-; reflexivity).
  rewrite jsonClone_obj in Hw. injection Hw as <-.
  rewrite jsonClone_obj. do 2 f_equal.
  assert (Hfields : forall k x, In (k, x) fs -> value_size x < n).
  { intros k x Hin. subst n. exact (value_size_field arr k x fs Hin). }
  clear Hn. unfold cloneFields.
  induction fs as [|[k x] fs IHfs]; simpl; [reflexivity|].
  assert (Hrest : forall k' x', In (k', x') fs -> value_size x' < n).
  { intros k' x' Hin. apply (Hfields k' x'). now right. }
  specialize (IHfs Hrest).
  destruct (jsonClone x) as [y|] eqn:Ex; simpl.
  - rewrite (IH _ (Hfields k x (or_introl eq_refl)) x eq_refl y Ex). simpl.
    now rewrite IHfs.
  - destruct arr; simpl; [now rewrite IHfs|exact IHfs].
Qed.

Lemma jsonFields_spec (fs : list (string * value)) :
  jsonFields fs = cloneFields false fs.
Proof. unfold jsonFields. now rewrite jsonClone_obj. Qed.

(** X21: the snapshot the constructor takes is a clone, and cloning a
    clone changes nothing: [reset] puts back exactly the snapshot,
    whatever happened to the tree in between. *)
Theorem reset_restores_the_snapshot (initialState : list (string * value))
        (s : StateManager) :
  state (reset (jsonFields initialState) s) = jsonFields initialState.
Proof.
  unfold reset. simpl.
  pose proof (jsonClone_idempotent (VObj false initialState)
                                   (VObj false (jsonFields initialState))) as H.
  rewrite jsonClone_obj, jsonFields_spec in H. specialize (H eq_refl).
  rewrite jsonClone_obj in H. injection H as H.
  rewrite !jsonFields_spec. exact H.
Qed.

Lemma jsonClone_defined (v w : value) :
  jsonClone v = Some w -> w <> VUndefined /\ forall id, w <> VSym id.
Proof.
  destruct v; simpl; try discriminate; intros [= <-]; split; try discriminate;
    intros; discriminate.
Qed.

Lemma jsonClone_tree (parts : list string) :
  forall v w x,
    jsonClone v = Some w -> tree_at parts w = Some x ->
    x <> VUndefined /\ forall id, x <> VSym id.
Proof.
  induction parts as [|k rest IH]; intros v w x Hw Hx.
  - simpl in Hx. injection Hx as <-. exact (jsonClone_defined v w Hw).
  - destruct v as [| |b|z|s|id|arr fs|]; try discriminate;
      try (injection Hw as <-; discriminate).
    rewrite jsonClone_obj in Hw. injection Hw as <-. simpl in Hx.
    destruct (lookup k (cloneFields arr fs)) as [next|] eqn:El; [|discriminate].
    apply lookup_In in El. unfold cloneFields in El. apply in_flat_map in El.
    destruct El as [[k0 x0] [_ Hin]]. simpl in Hin.
    destruct (jsonClone x0) as [y|] eqn:Ey.
    + destruct Hin as [Heq|[]]. injection Heq as _ ->.
      exact (IH x0 next x Ey Hx).
    + destruct arr; [|destruct Hin].
      destruct Hin as [Heq|[]]. injection Heq as _ <-.
      exact (IH VNull VNull x eq_refl Hx).
Qed.

(** X22: after [reset], nothing in the tree is [undefined] or a symbol:
    the properties of the initial state that held one are not restored (in
    an array they come back as [null]). *)
Theorem reset_never_restores_undefined_or_symbols
        (initialState : list (string * value)) (s : StateManager)
        (parts : list string) (x : value) :
  tree_at parts (VObj false (state (reset initialState s))) = Some x ->
  x <> VUndefined /\ forall id, x <> VSym id.
Proof.
  intros Hx. unfold reset in Hx. simpl in Hx.
  apply (jsonClone_tree parts (VObj false initialState)
                        (VObj false (jsonFields initialState)) x); [|exact Hx].
  rewrite jsonClone_obj, jsonFields_spec. reflexivity.
Qed.

Lemma reset_never_restores_witness :
  VObj true [("0", VNull)] <> VUndefined /\
  forall id, VObj true [("0", VNull)] <> VSym id.
Proof.
  apply (reset_never_restores_undefined_or_symbols
           [("tags", VObj true [("0", VSym 1)]); ("gone", VUndefined)]
           profile ["tags"] (VObj true [("0", VNull)])).
  reflexivity.
Defined.

(** ** The async resolver over its histories *)

Lemma resolver_add_In (p q : AsyncResolver.promise) (l : list AsyncResolver.promise) :
  In q (AsyncResolver.add p l) -> q = p \/ In q l.
Proof.
  unfold AsyncResolver.add. destruct (existsb (AsyncResolver.promise_eqb p) l).
  - auto.
  - intros H. apply in_app_or in H. destruct H as [H|[<-|[]]]; auto.
Qed.

Lemma resolverStep_wrappers (r : AsyncResolver.resolver) (e : resolverEvent) :
  Forall isWrapper (AsyncResolver.activePromises r) ->
  Forall isWrapper (AsyncResolver.activePromises (resolverStep r e)).
Proof.
  intros H. destruct e as [[id|v]|p| | |cb|cb|]; simpl.
  - unfold AsyncResolver.trackingPromisify. simpl. rewrite Nat.eqb_refl.
    rewrite andb_false_r. exact H.
  - unfold AsyncResolver.trackingPromisify. simpl.
    destruct (AsyncResolver.isTracking r); simpl; [|exact H].
    apply Forall_forall. intros q Hq. apply resolver_add_In in Hq.
    destruct Hq as [->|Hq].
    + eexists. eexists. reflexivity.
    + rewrite Forall_forall in H. exact (H q Hq).
  - unfold AsyncResolver.settled.
    destruct (existsb (AsyncResolver.promise_eqb p) (AsyncResolver.reactions r));
      simpl; [|exact H].
    apply Forall_forall. intros q Hq. apply filter_In in Hq.
    rewrite Forall_forall in H. exact (H q (proj1 Hq)).
  - constructor.
  - exact H.
  - exact H.
  - exact H.
  - unfold AsyncResolver.checkAllComplete.
    destruct (AsyncResolver.activePromises r) eqn:Ea; [|rewrite Ea; exact H].
    destruct (AsyncResolver.subscribers r); simpl; try rewrite Ea; constructor.
Qed.

(** X23: whatever the history of a resolver, the set its completion
    barrier waits for holds only promises [promisify] made itself: a
    thenable handed to [promisify] is never in it. *)
Theorem barrier_waits_only_for_wrappers (history : list resolverEvent)
        (p : AsyncResolver.promise) :
  In p (AsyncResolver.activePromises (resolverAfter history)) -> isWrapper p.
Proof.
  assert (H : Forall isWrapper (AsyncResolver.activePromises (resolverAfter history))).
  { unfold resolverAfter.
    assert (Hgen : forall r, Forall isWrapper (AsyncResolver.activePromises r) ->
                             Forall isWrapper
                                    (AsyncResolver.activePromises
                                       (fold_left resolverStep history r))).
    { induction history as [|e history IH]; intros r Hr; [exact Hr|].
      simpl. apply IH. apply resolverStep_wrappers. exact Hr. }
    apply Hgen. constructor. }
  rewrite Forall_forall in H. exact (H p).
Qed.

Lemma barrier_waits_only_for_wrappers_witness :
  isWrapper (AsyncResolver.Fresh 0 (VNum 1)).
Proof.
  apply (barrier_waits_only_for_wrappers
           [StartTracking; Promisify (AsyncResolver.Thenable 7);
            Promisify (AsyncResolver.Plain (VNum 1))]
           (AsyncResolver.Fresh 0 (VNum 1))).
  simpl. auto.
Defined.

Lemma resolverStep_allocated (r : AsyncResolver.resolver) (e : resolverEvent) :
  allocatedBefore r -> allocatedBefore (resolverStep r e).
Proof.
  unfold allocatedBefore. intros H. destruct e as [[id|v]|p| | |cb|cb|]; simpl.
  - unfold AsyncResolver.trackingPromisify. simpl. rewrite Nat.eqb_refl.
    rewrite andb_false_r. exact H.
  - unfold AsyncResolver.trackingPromisify. simpl.
    destruct (AsyncResolver.isTracking r); simpl.
    + intros n x Hin. apply in_app_or in Hin. destruct Hin as [Hin|Hin].
      * apply resolver_add_In in Hin. destruct Hin as [Heq|Hin].
        { injection Heq as -> _. lia. }
        { apply Nat.lt_lt_succ_r. apply (H n x). apply in_or_app. now left. }
      * apply in_app_or in Hin. destruct Hin as [Hin|[Heq|[]]].
        { apply Nat.lt_lt_succ_r. apply (H n x). apply in_or_app. now right. }
        { injection Heq as <- _. lia. }
    + intros n x Hin. apply Nat.lt_lt_succ_r. exact (H n x Hin).
  - unfold AsyncResolver.settled.
    destruct (existsb (AsyncResolver.promise_eqb p) (AsyncResolver.reactions r));
      simpl; [|exact H].
    intros n x Hin. apply (H n x). apply in_app_or in Hin. apply in_or_app.
    destruct Hin as [Hin|Hin]; apply filter_In in Hin; tauto.
  - intros n x Hin. apply (H n x). apply in_or_app. now right.
  - exact H.
  - exact H.
  - exact H.
  - unfold AsyncResolver.checkAllComplete.
    destruct (AsyncResolver.activePromises r) eqn:Ea; [|rewrite Ea; exact H].
    destruct (AsyncResolver.subscribers r); simpl; try rewrite Ea; exact H.
Qed.

Lemma resolverAfter_allocated (history : list resolverEvent) :
  allocatedBefore (resolverAfter history).
Proof.
  unfold resolverAfter.
  assert (Hgen : forall r, allocatedBefore r ->
                           allocatedBefore (fold_left resolverStep history r)).
  { induction history as [|e history IH]; intros r Hr; [exact Hr|].
    simpl. apply IH. apply resolverStep_allocated. exact Hr. }
  apply Hgen. intros n v [].
Qed.

Lemma filter_allocated (n : nat) (v : value) (l : list AsyncResolver.promise) :
  (forall m x, In (AsyncResolver.Fresh m x) l -> m < n) ->
  filter (fun q => negb (AsyncResolver.promise_eqb (AsyncResolver.Fresh n v) q)) l = l.
Proof.
  intros H. apply filter_all. apply Forall_forall. intros q Hq.
  destruct q as [id|m x]; [reflexivity|]. simpl. apply negb_true_iff.
  apply Nat.eqb_neq. specialize (H m x Hq). lia.
Qed.

Lemma existsb_allocated (n : nat) (v : value) (l : list AsyncResolver.promise) :
  (forall m x, In (AsyncResolver.Fresh m x) l -> m < n) ->
  existsb (AsyncResolver.promise_eqb (AsyncResolver.Fresh n v)) l = false.
Proof.
  intros H. destruct (existsb _ l) eqn:E; [|reflexivity].
  apply existsb_exists in E. destruct E as [q [Hq Heq]].
  destruct q as [id|m x]; [discriminate|]. simpl in Heq. apply Nat.eqb_eq in Heq.
  specialize (H m x Hq). lia.
Qed.

(** X24: while tracking, after any history: wrapping a plain value and
    letting the wrapper settle puts the barrier's set back to what it was
    and queues one completion check. *)
Theorem settling_undoes_promisify (history : list resolverEvent) (v : value) :
  AsyncResolver.isTracking (resolverAfter history) = true ->
  let r := resolverAfter history in
  let p := fst (AsyncResolver.trackingPromisify (AsyncResolver.Plain v) r) in
  let r' := AsyncResolver.settled
              p (snd (AsyncResolver.trackingPromisify (AsyncResolver.Plain v) r)) in
  In p (AsyncResolver.activePromises
          (snd (AsyncResolver.trackingPromisify (AsyncResolver.Plain v) r))) /\
  AsyncResolver.activePromises r' = AsyncResolver.activePromises r /\
  AsyncResolver.reactions r' = AsyncResolver.reactions r /\
  AsyncResolver.timers r' = AsyncResolver.timers r ++ [AsyncResolver.CheckAllComplete].
Proof.
  intros Htrack r p r'. subst p r'. fold r in Htrack.
  pose proof (resolverAfter_allocated history) as Halloc. fold r in Halloc.
  unfold allocatedBefore in Halloc.
  assert (Ha : forall m x, In (AsyncResolver.Fresh m x) (AsyncResolver.activePromises r)
                           -> m < AsyncResolver.allocated r).
  { intros m x Hin. apply (Halloc m x). apply in_or_app. now left. }
  assert (Hr : forall m x, In (AsyncResolver.Fresh m x) (AsyncResolver.reactions r)
                           -> m < AsyncResolver.allocated r).
  { intros m x Hin. apply (Halloc m x). apply in_or_app. now right. }
  unfold AsyncResolver.trackingPromisify. simpl. rewrite Htrack. simpl.
  unfold AsyncResolver.add. rewrite (existsb_allocated _ v _ Ha).
  split; [apply in_or_app; right; now left|].
  unfold AsyncResolver.settled. simpl.
  rewrite existsb_app. simpl. rewrite Nat.eqb_refl. rewrite orb_true_r. simpl.
  rewrite !filter_app. simpl. rewrite Nat.eqb_refl. simpl. rewrite !app_nil_r.
  split; [exact (filter_allocated _ v _ Ha)|].
  split; [exact (filter_allocated _ v _ Hr)|reflexivity].
Qed.

Lemma settling_undoes_promisify_witness :
  let r := resolverAfter [Promisify (AsyncResolver.Plain VNull); StartTracking;
                          Promisify (AsyncResolver.Plain (VNum 1))] in
  let p := fst (AsyncResolver.trackingPromisify (AsyncResolver.Plain (VNum 2)) r) in
  let r' := AsyncResolver.settled
              p (snd (AsyncResolver.trackingPromisify (AsyncResolver.Plain (VNum 2)) r)) in
  In p (AsyncResolver.activePromises
          (snd (AsyncResolver.trackingPromisify (AsyncResolver.Plain (VNum 2)) r))) /\
  AsyncResolver.activePromises r' = AsyncResolver.activePromises r /\
  AsyncResolver.reactions r' = AsyncResolver.reactions r /\
  AsyncResolver.timers r' = AsyncResolver.timers r ++ [AsyncResolver.CheckAllComplete].
Proof.
  apply (settling_undoes_promisify
           [Promisify (AsyncResolver.Plain VNull); StartTracking;
            Promisify (AsyncResolver.Plain (VNum 1))] (VNum 2)).
  reflexivity.
Defined.

(** X25: a subscriber that registers with [onAllComplete] while one
    wrapper is pending is not called at once; it is called by the check
    that the settling of the wrapper queues. *)
Theorem barrier_releases_its_subscriber (r : AsyncResolver.resolver) (v : value)
        (callback : nat) :
  AsyncResolver.isTracking r = true -> AsyncResolver.activePromises r = [] ->
  let p := fst (AsyncResolver.trackingPromisify (AsyncResolver.Plain v) r) in
  let r1 := AsyncResolver.onAllComplete
              callback (snd (AsyncResolver.trackingPromisify (AsyncResolver.Plain v) r)) in
  let r2 := AsyncResolver.settled p r1 in
  AsyncResolver.timers r1 = AsyncResolver.timers r /\
  AsyncResolver.timers r2 = AsyncResolver.timers r ++ [AsyncResolver.CheckAllComplete] /\
  AsyncResolver.invoked r2 = AsyncResolver.invoked r /\
  In callback (AsyncResolver.invoked (AsyncResolver.checkAllComplete r2)).
Proof.
  intros Htrack Hnone p r1 r2. subst p r1 r2.
  unfold AsyncResolver.trackingPromisify. simpl. rewrite Htrack, Hnone. simpl.
  unfold AsyncResolver.onAllComplete. simpl.
  split; [reflexivity|].
  unfold AsyncResolver.settled. simpl.
  rewrite existsb_app. simpl. rewrite Nat.eqb_refl. rewrite orb_true_r. simpl.
  split; [reflexivity|]. split; [reflexivity|].
  unfold AsyncResolver.checkAllComplete. simpl.
  destruct (existsb (Nat.eqb callback) (AsyncResolver.subscribers r)) eqn:E.
  - apply existsb_exists in E. destruct E as [c [Hc Heq]].
    apply Nat.eqb_eq in Heq. subst c.
    destruct (AsyncResolver.subscribers r) as [|c0 cs] eqn:Es; [destruct Hc|].
    simpl. apply in_or_app. right. exact Hc.
  - destruct (AsyncResolver.subscribers r) as [|c0 cs] eqn:Es; simpl.
    + apply in_or_app. right. now left.
    + apply in_or_app. right. right. apply in_or_app. right. now left.
Qed.

Lemma barrier_releases_its_subscriber_witness :
  let r := AsyncResolver.startTracking AsyncResolver.newResolver in
  let p := fst (AsyncResolver.trackingPromisify (AsyncResolver.Plain VNull) r) in
  let r1 := AsyncResolver.onAllComplete
              5 (snd (AsyncResolver.trackingPromisify (AsyncResolver.Plain VNull) r)) in
  let r2 := AsyncResolver.settled p r1 in
  AsyncResolver.timers r1 = AsyncResolver.timers r /\
  AsyncResolver.timers r2 = AsyncResolver.timers r ++ [AsyncResolver.CheckAllComplete] /\
  AsyncResolver.invoked r2 = AsyncResolver.invoked r /\
  In 5 (AsyncResolver.invoked (AsyncResolver.checkAllComplete r2)).
Proof.
  apply (barrier_releases_its_subscriber
           (AsyncResolver.startTracking AsyncResolver.newResolver) VNull 5);
    reflexivity.
Defined.

(** ** The local state of a component after [cleanup] *)

Lemma lookup_remove_same (A : Type) (k : string) (l : list (string * A)) :
  NoDup (keys l) -> lookup k (remove k l) = None.
Proof.
  intros Hnd. destruct (lookup k (remove k l)) as [v|] eqn:E; [|reflexivity].
  exfalso. apply (remove_NoDup_gone A k l Hnd).
  apply lookup_In in E. apply (in_map fst) in E. exact E.
Qed.

Lemma lookup_remove_other (A : Type) (k j : string) (l : list (string * A)) :
  k <> j -> lookup k (remove j l) = lookup k l.
Proof.
  intros Hne. induction l as [|[k' v'] l IH]; simpl; [reflexivity|].
  destruct (String.eqb j k') eqn:E; simpl.
  - apply String.eqb_eq in E. subst k'.
    destruct (String.eqb k j) eqn:E'; [|reflexivity].
    apply String.eqb_eq in E'. contradiction.
  - now rewrite IH.
Qed.

Lemma remove_keys_incl (A : Type) (k : string) (l : list (string * A)) :
  forall x, In x (keys (remove k l)) -> In x (keys l).
Proof.
  intros x Hx. unfold keys in *. apply in_map_iff in Hx.
  destruct Hx as [e [<- He]]. apply in_map. exact (In_remove A k l e He).
Qed.

Lemma remove_NoDup (A : Type) (k : string) (l : list (string * A)) :
  NoDup (keys l) -> NoDup (keys (remove k l)).
Proof.
  induction l as [|[k' v'] l IH]; simpl; [auto|].
  intros Hnd. inversion Hnd as [|? ? Hnotin Hnd']; subst.
  destruct (String.eqb k k'); [exact Hnd'|].
  simpl. constructor; [|exact (IH Hnd')].
  intros H. apply Hnotin. exact (remove_keys_incl A k l k' H).
Qed.

Lemma wf_child (arr : bool) (fs : list (string * value)) (k : string) (x : value) :
  wf_value (VObj arr fs) -> lookup k fs = Some x -> wf_value x.
Proof.
  intros Hwf Hl. inversion Hwf as [| | | | | |? ? _ Hall|]; subst.
  rewrite Forall_forall in Hall. exact (Hall (k, x) (lookup_In _ _ _ _ Hl)).
Qed.

Lemma wf_assign_present (arr : bool) (fs : list (string * value)) (k : string)
      (x y : value) :
  wf_value (VObj arr fs) -> lookup k fs = Some x -> wf_value y ->
  wf_value (VObj arr (assign k y fs)).
Proof.
  intros Hwf Hl Hy. inversion Hwf as [| | | | | |? ? Hnd Hall|]; subst.
  constructor.
  - rewrite (keys_assign_present _ k y x fs Hl). exact Hnd.
  - apply Forall_forall. intros e He. apply In_assign in He.
    destruct He as [->|He]; [exact Hy|].
    rewrite Forall_forall in Hall. exact (Hall e He).
Qed.

Lemma wf_remove (arr : bool) (fs : list (string * value)) (k : string) :
  wf_value (VObj arr fs) -> wf_value (VObj arr (remove k fs)).
Proof.
  intros Hwf. inversion Hwf as [| | | | | |? ? Hnd Hall|]; subst.
  constructor; [exact (remove_NoDup _ k fs Hnd)|].
  apply Forall_forall. intros e He. rewrite Forall_forall in Hall.
  exact (Hall e (In_remove _ k fs e He)).
Qed.

Lemma deletePath_cons2 (p q : string) (rest : list string)
      (fs : list (string * value)) :
  deletePath (p :: q :: rest) fs =
  match lookup p fs with
  | Some (VObj arr child) => assign p (VObj arr (deletePath (q :: rest) child)) fs
  | _ => fs
  end.
Proof.
  cbn [deletePath get_prop]. destruct (lookup p fs) as [x|]; [|reflexivity].
  destruct x as [| |b|z|s|id|a child|]; try reflexivity.
  - simpl. destruct b; reflexivity.
  - simpl. destruct (negb (Z.eqb z 0)); reflexivity.
  - simpl. destruct (nonEmpty s); reflexivity.
Qed.

Lemma wf_deletePath (parts : list string) :
  forall (arr : bool) (fs : list (string * value)),
    wf_value (VObj arr fs) -> wf_value (VObj arr (deletePath parts fs)).
Proof.
  induction parts as [|p rest IH]; intros arr fs Hwf.
  - apply wf_remove. exact Hwf.
  - destruct rest as [|q rest]; [apply wf_remove; exact Hwf|].
    rewrite deletePath_cons2.
    destruct (lookup p fs) as [x|] eqn:El; [|exact Hwf].
    destruct x as [| |b|z|s|id|a child|]; try exact Hwf.
    apply (wf_assign_present arr fs p (VObj a child)); [exact Hwf|exact El|].
    apply IH. exact (wf_child arr fs p _ Hwf El).
Qed.

Lemma gone_not_nil (parts : list string) (fs : list (string * value)) :
  gone parts fs -> parts <> [].
Proof.
  intros H Hnil. subst parts. specialize (H false VNull). discriminate.
Qed.

Lemma get_path_cons (k : string) (rest : list string) (arr : bool)
      (fs : list (string * value)) (d : value) :
  get_path (k :: rest) (VObj arr fs) d =
  match lookup k fs with
  | Some VUndefined | None => d
  | Some next => get_path rest next d
  end.
Proof.
  simpl. destruct (lookup k fs) as [x|]; [|reflexivity]. destruct x; reflexivity.
Qed.

Lemma stringMember_plain (s k : string) :
  plainName k = true -> stringMember s k = VUndefined.
Proof.
  unfold plainName, stringMember. intros H. apply andb_prop in H. destruct H as [Hi Hx].
  destruct (String.eqb k "length") eqn:E.
  - apply String.eqb_eq in E. subst k. discriminate.
  - destruct (indexOf k); [discriminate|reflexivity].
Qed.

Lemma get_path_nonobject (k : string) (rest : list string) (x d : value) :
  plainName k = true -> (forall arr fs, x <> VObj arr fs) ->
  get_path (k :: rest) x d = d.
Proof.
  intros Hk Hx. cbn [get_path get_prop].
  destruct x; try reflexivity.
  - cbn [get_prop]. now rewrite (stringMember_plain _ _ Hk).
  - exfalso. apply (Hx isArray fields). reflexivity.
Qed.

Lemma deletePath_gone (parts : list string) :
  forall (arr : bool) (fs : list (string * value)),
    parts <> [] -> Forall (fun k => plainName k = true) parts ->
    wf_value (VObj arr fs) -> gone parts (deletePath parts fs).
Proof.
  induction parts as [|p rest IH]; intros arr fs Hne Hplain Hwf; [contradiction|].
  inversion Hplain as [|? ? _ Hrest]; subst.
  intros arr' d. destruct rest as [|q rest].
  - rewrite get_path_cons. inversion Hwf as [| | | | | |? ? Hnd _|]; subst.
    simpl deletePath. now rewrite (lookup_remove_same _ p fs Hnd).
  - inversion Hrest as [|? ? Hq _]; subst.
    rewrite deletePath_cons2.
    destruct (lookup p fs) as [x|] eqn:El.
    + destruct x as [| |b|z|s|id|a child|];
        try (rewrite get_path_cons, El;
             first [reflexivity
                   |apply get_path_nonobject; [exact Hq|intros; discriminate]]).
      rewrite get_path_cons, lookup_assign_same.
      apply (IH a child); [discriminate|exact Hrest|exact (wf_child arr fs p _ Hwf El)].
    + rewrite get_path_cons, El. reflexivity.
Qed.

Lemma deletePath_keeps_gone (q : list string) :
  forall (p : list string) (arr : bool) (fs : list (string * value)),
    wf_value (VObj arr fs) -> gone p fs -> gone p (deletePath q fs).
Proof.
  induction q as [|j rest IH]; intros p arr fs Hwf Hgone.
  - pose proof (gone_not_nil p fs Hgone) as Hne.
    destruct p as [|k p']; [contradiction|]. intros arr' d.
    specialize (Hgone arr' d). rewrite get_path_cons in *. simpl deletePath.
    inversion Hwf as [| | | | | |? ? Hnd _|]; subst.
    destruct (String.eqb k "undefined") eqn:E.
    + apply String.eqb_eq in E. subst k. now rewrite (lookup_remove_same _ _ fs Hnd).
    + apply String.eqb_neq in E. now rewrite (lookup_remove_other _ k _ fs E).
  - pose proof (gone_not_nil p fs Hgone) as Hne.
    destruct p as [|k p']; [contradiction|].
    destruct rest as [|j2 rest].
    + intros arr' d. specialize (Hgone arr' d). rewrite get_path_cons in *.
      simpl deletePath. inversion Hwf as [| | | | | |? ? Hnd _|]; subst.
      destruct (String.eqb k j) eqn:E.
      * apply String.eqb_eq in E. subst k. now rewrite (lookup_remove_same _ _ fs Hnd).
      * apply String.eqb_neq in E. now rewrite (lookup_remove_other _ k _ fs E).
    + rewrite deletePath_cons2.
      destruct (lookup j fs) as [x|] eqn:El; [|exact Hgone].
      destruct x as [| |b|z|s|id|a child|]; try exact Hgone.
      intros arr' d. rewrite get_path_cons.
      destruct (String.eqb k j) eqn:E.
      * apply String.eqb_eq in E. subst k. rewrite lookup_assign_same.
        destruct p' as [|k' p''].
        { specialize (Hgone arr VNull). rewrite get_path_cons, El in Hgone.
          discriminate. }
        apply (IH (k' :: p'') a child (wf_child arr fs j _ Hwf El)).
        intros a' d'. specialize (Hgone arr d').
        rewrite get_path_cons, El in Hgone.
        rewrite get_path_cons. rewrite get_path_cons in Hgone. exact Hgone.
      * apply String.eqb_neq in E. rewrite (lookup_assign_other _ k j _ fs E).
        specialize (Hgone arr' d). rewrite get_path_cons in Hgone. exact Hgone.
Qed.

Lemma cleanup_fold_keeps (states : list string) :
  forall (p : list string) (fs : list (string * value)),
    wf_value (VObj false fs) -> gone p fs ->
    gone p (fold_left (fun fields statePath => deletePath (split "." statePath) fields)
                      states fs).
Proof.
  induction states as [|q states IH]; intros p fs Hwf Hgone; [exact Hgone|].
  simpl. apply IH.
  - apply wf_deletePath. exact Hwf.
  - apply (deletePath_keeps_gone _ p false fs Hwf Hgone).
Qed.

Lemma cleanup_fold_gone (states : list string) :
  forall (p : string) (fs : list (string * value)),
    wf_value (VObj false fs) -> In p states ->
    Forall (fun k => plainName k = true) (split "." p) ->
    gone (split "." p)
         (fold_left (fun fields statePath => deletePath (split "." statePath) fields)
                    states fs).
Proof.
  induction states as [|q states IH]; intros p fs Hwf Hin Hplain; [destruct Hin|].
  simpl. destruct Hin as [->|Hin].
  - apply cleanup_fold_keeps; [apply wf_deletePath; exact Hwf|].
    apply (deletePath_gone _ false fs (split_not_nil "." p) Hplain Hwf).
  - apply IH; [apply wf_deletePath; exact Hwf|exact Hin|exact Hplain].
Qed.

(** X26: after [cleanup], the getter of each local state of the component
    answers its initial value again, whatever had been stored, when the
    tree has distinct keys, the path of that state has no empty segment,
    and no segment of a state path of the component is a name that a
    prototype defines or an array index. *)
Theorem cleanup_forgets_local_state (states : list string) (a : Component.accessors)
        (s : StateManager) :
  wf_value (VObj false (state s)) ->
  In (Component.statePath a) states ->
  split "." (Component.statePath a) = getPathParts (Component.statePath a) ->
  Forall (fun q => Forall (fun k => plainName k = true) (split "." q)) states ->
  fst (Component.getter a (cleanupStates states s)) =
  orDefault VNull (Component.initialValue a).
Proof.
  intros Hwf Hin Hnormal Hall.
  assert (Hplain : Forall (fun k => plainName k = true)
                          (getPathParts (Component.statePath a))).
  { rewrite <- Hnormal. exact (proj1 (Forall_forall _ _) Hall _ Hin). }
  unfold Component.getter. rewrite getState_fst.
  destruct (isValidPath (Component.statePath a)); [|reflexivity].
  rewrite <- Hnormal in *. unfold cleanupStates. simpl.
  apply (cleanup_fold_gone states (Component.statePath a) (state s) Hwf Hin Hplain).
Qed.

Lemma cleanup_forgets_local_state_witness :
  fst (Component.getter
         {| Component.statePath := "__local.Counter_1.count";
            Component.initialValue := VNum 0 |}
         (cleanupStates ["__local.Counter_1.count"] twoCounters)) = VNum 0.
Proof.
  apply (cleanup_forgets_local_state
           ["__local.Counter_1.count"]
           {| Component.statePath := "__local.Counter_1.count";
              Component.initialValue := VNum 0 |} twoCounters).
  - repeat constructor; simpl; intuition discriminate.
  - simpl. auto.
  - reflexivity.
  - repeat constructor.
Defined.






(** ** The key hash *)

Lemma toInt32_mod (z : Z) : (toInt32 z mod 2 ^ 32 = z mod 2 ^ 32)%Z.
Proof.
  unfold toInt32. rewrite Zminus_mod_idemp_l. f_equal. lia.
Qed.

Lemma toInt32_congr (a b : Z) :
  (a mod 2 ^ 32 = b mod 2 ^ 32)%Z -> toInt32 a = toInt32 b.
Proof.
  intros H. unfold toInt32. f_equal.
  rewrite (Zplus_mod a), (Zplus_mod b), H. reflexivity.
Qed.

Lemma toInt32_range (z : Z) : (- 2 ^ 31 <= toInt32 z < 2 ^ 31)%Z.
Proof.
  unfold toInt32.
  pose proof (Z.mod_pos_bound (z + 2 ^ 31) (2 ^ 32) ltac:(lia)) as H. lia.
Qed.

Lemma hashStep_spec (h c : Z) : hashStep h c = toInt32 (31 * h + c).
Proof.
  unfold hashStep. apply toInt32_congr.
  rewrite Z.shiftl_mul_pow2 by lia.
  rewrite <- Zplus_mod_idemp_l, <- Zminus_mod_idemp_l, toInt32_mod.
  rewrite Zminus_mod_idemp_l, Zplus_mod_idemp_l. f_equal. lia.
Qed.

Lemma hashLoop_spec (str : list Z) :
  forall a : Z,
    fold_left hashStep str (toInt32 a) =
    toInt32 (fold_left (fun acc c => (31 * acc + c)%Z) str a).
Proof.
  induction str as [|c str IH]; intros a; [reflexivity|].
  simpl. rewrite hashStep_spec.
  rewrite (toInt32_congr (31 * toInt32 a + c) (31 * a + c)).
  - apply IH.
  - rewrite <- Zplus_mod_idemp_l, <- Zmult_mod_idemp_r, toInt32_mod.
    rewrite Zmult_mod_idemp_r, Zplus_mod_idemp_l. reflexivity.
Qed.

(** X28: the hash of the renderer's keys is the polynomial hash with
    multiplier 31 of the code units, reduced to a signed 32-bit integer,
    without its sign; it lies between 0 and 2^31. *)
Theorem hashOf_is_the_polynomial_hash (str : list Z) :
  hashOf str = Z.abs (toInt32 (poly31 str)) /\ (0 <= hashOf str <= 2 ^ 31)%Z.
Proof.
  assert (H : hashOf str = Z.abs (toInt32 (poly31 str))).
  { unfold hashOf, poly31. f_equal. exact (hashLoop_spec str 0%Z). }
  split; [exact H|]. rewrite H.
  pose proof (toInt32_range (poly31 str)). lia.
Qed.
